(** * Lazor solver: a shallow embedding of [Main_Code_Block.py]

    The development follows the Python source: points and lasers are
    records over [Z] (Python integers are unbounded), the board's [grid]
    dictionary is a [gmap], the sets of points are [gset]s, and the code
    that mutates the board runs in a small state monad whose results say
    whether the call returned, raised, or did not finish. *)

From Stdlib Require Import ZArith Lia.
From stdpp Require Import gmap list fin_sets strings.

Local Open Scope Z_scope.

(** ** Points and lasers *)

Record Point : Type := mkPoint { x : Z; y : Z }.

#[global] Instance Point_eq_dec : EqDecision Point.
Proof. solve_decision. Defined.

#[global] Instance Point_countable : Countable Point.
Proof.
  refine (inj_countable' (fun p => (x p, y p)) (fun q => mkPoint q.1 q.2) _).
  intros []. reflexivity.
Defined.

(** [Point.__add__] *)
Definition Point_add (self other : Point) : Point :=
  mkPoint (x self + x other) (y self + y other).

Record Laser : Type := mkLaser { origin : Point; direction : Point }.

#[global] Instance Laser_eq_dec : EqDecision Laser.
Proof. solve_decision. Defined.

(** ** Results of a call

    A Python call returns a value, raises, or (for the loops that have no
    structural bound) keeps running; the last case shows up in the model as
    running out of fuel. *)

Inductive Exception : Type :=
  | UnexpectedEntry                       (* ValueError of ReflectBlock.interact *)
  | UnexpectedPosition (prev block_pos : Point)  (* ValueError of RefractBlock.interact *)
  | AlreadyOccupied (p : Point)           (* ValueError of Board.add_block *)
  | KeyError (p : Point)                  (* del board.grid[pos] on a missing key *)
  | IndexError.                           (* solution.pop() on an empty list *)

#[global] Instance Exception_eq_dec : EqDecision Exception.
Proof. solve_decision. Defined.

Inductive Res (A : Type) : Type :=
  | Ret (a : A)
  | Raise (e : Exception)
  | OutOfFuel.

Arguments Ret {A} a.
Arguments Raise {A} e.
Arguments OutOfFuel {A}.

Definition Res_bind {A B : Type} (r : Res A) (k : A -> Res B) : Res B :=
  match r with
  | Ret a => k a
  | Raise e => Raise e
  | OutOfFuel => OutOfFuel
  end.

(** ** Blocks *)

Inductive BlockClass : Type := ReflectBlock | OpaqueBlock | RefractBlock.

#[global] Instance BlockClass_eq_dec : EqDecision BlockClass.
Proof. solve_decision. Defined.

Record Block : Type := mkBlock { class : BlockClass; pos : Point; fixed : bool }.

#[global] Instance Block_eq_dec : EqDecision Block.
Proof. solve_decision. Defined.

(** [ReflectBlock.interact] *)
Definition ReflectBlock_interact (self : Block) (laser : Laser) : Res (list Laser) :=
  let prev_pos := origin laser in
  let block_pos := pos self in
  let dx := x (direction laser) in
  let dy := y (direction laser) in
  if bool_decide (x prev_pos = x block_pos) && negb (bool_decide (y prev_pos = y block_pos)) then
    Ret [mkLaser block_pos (mkPoint dx (- dy))]
  else if bool_decide (y prev_pos = y block_pos) && negb (bool_decide (x prev_pos = x block_pos)) then
    Ret [mkLaser block_pos (mkPoint (- dx) dy)]
  else Raise UnexpectedEntry.

(** [OpaqueBlock.interact] *)
Definition OpaqueBlock_interact (self : Block) (laser : Laser) : Res (list Laser) :=
  Ret [].

(** [RefractBlock.interact] *)
Definition RefractBlock_interact (self : Block) (laser : Laser) : Res (list Laser) :=
  let prev_pos := origin laser in
  let block_pos := pos self in
  let dx := x (direction laser) in
  let dy := y (direction laser) in
  let transmitted := mkLaser block_pos (mkPoint dx dy) in
  if bool_decide (x prev_pos = x block_pos) && negb (bool_decide (y prev_pos = y block_pos)) then
    Ret [transmitted; mkLaser block_pos (mkPoint dx (- dy))]
  else if bool_decide (y prev_pos = y block_pos) && negb (bool_decide (x prev_pos = x block_pos)) then
    Ret [transmitted; mkLaser block_pos (mkPoint (- dx) dy)]
  else Raise (UnexpectedPosition prev_pos block_pos).

(** Method dispatch on the block's class. *)
Definition interact (self : Block) (laser : Laser) : Res (list Laser) :=
  match class self with
  | ReflectBlock => ReflectBlock_interact self laser
  | OpaqueBlock => OpaqueBlock_interact self laser
  | RefractBlock => RefractBlock_interact self laser
  end.

(** ** The board *)

(** The keys of [available_blocks]: the letters 'A', 'B' and 'C'. *)
Inductive BlockType : Type := A | B | C.

#[global] Instance BlockType_eq_dec : EqDecision BlockType.
Proof. solve_decision. Defined.

(** [available_blocks] is a dictionary iterated in insertion order, hence
    an association list. *)
Record Board : Type := mkBoard {
  width : Z;
  height : Z;
  grid : gmap Point Block;
  lasers : list Laser;
  targets : gset Point;
  available_blocks : list (BlockType * Z);
  empty_positions : list Point
}.

(** [Board.__init__] *)
Definition Board_init (width height : Z) : Board :=
  mkBoard width height ∅ [] ∅ [(A, 0); (B, 0); (C, 0)] [].

Definition set_grid (g : gmap Point Block) (b : Board) : Board :=
  mkBoard (width b) (height b) g (lasers b) (targets b)
          (available_blocks b) (empty_positions b).

Definition set_lasers (ls : list Laser) (b : Board) : Board :=
  mkBoard (width b) (height b) (grid b) ls (targets b)
          (available_blocks b) (empty_positions b).

Definition set_targets (ts : gset Point) (b : Board) : Board :=
  mkBoard (width b) (height b) (grid b) (lasers b) ts
          (available_blocks b) (empty_positions b).

(** ** The monad of code that works on the board

    A computation takes the board, and returns its value, the board as it
    left it, and the events it performed. *)

Inductive Event : Type :=
  | TimeRead                 (* a call of time.time() *)
  | TryPlace (index : nat).  (* an entry of try_place(index) *)

#[global] Instance Event_eq_dec : EqDecision Event.
Proof. solve_decision. Defined.

Definition M (A : Type) : Type := Board -> Res (A * Board * list Event).

Definition ret {A : Type} (a : A) : M A := fun b => Ret (a, b, []).

Definition bind {A B : Type} (m : M A) (k : A -> M B) : M B :=
  fun b =>
    match m b with
    | Ret (a, b1, log1) =>
        match k a b1 with
        | Ret (c, b2, log2) => Ret (c, b2, log1 ++ log2)
        | Raise e => Raise e
        | OutOfFuel => OutOfFuel
        end
    | Raise e => Raise e
    | OutOfFuel => OutOfFuel
    end.

Definition raise {A : Type} (e : Exception) : M A := fun _ => Raise e.
Definition get : M Board := fun b => Ret (b, b, []).
Definition put (b' : Board) : M unit := fun _ => Ret (tt, b', []).
Definition emit (e : Event) : M unit := fun b => Ret (tt, b, [e]).
Definition lift {A : Type} (r : Res A) : M A :=
  fun b => match r with
           | Ret a => Ret (a, b, [])
           | Raise e => Raise e
           | OutOfFuel => OutOfFuel
           end.

Declare Scope board_scope.
Delimit Scope board_scope with board.
Notation "v <- m ;; k" := (bind m (fun v => k))
  (at level 100, m at next level, right associativity) : board_scope.
Notation "m ;;; k" := (bind m (fun _ => k))
  (at level 100, right associativity) : board_scope.
Local Open Scope board_scope.

(** [Board.add_block] *)
Definition add_block (block : Block) : M unit :=
  self <- get ;;
  if bool_decide (pos block ∈ dom (grid self)) then raise (AlreadyOccupied (pos block))
  else put (set_grid (<[pos block := block]> (grid self)) self).

(** [del board.grid[pos]] *)
Definition del_grid (p : Point) : M unit :=
  board <- get ;;
  if bool_decide (p ∈ dom (grid board)) then put (set_grid (delete p (grid board)) board)
  else raise (KeyError p).

(** [Board.add_laser] *)
Definition add_laser (x y dx dy : Z) : M unit :=
  self <- get ;;
  let norm_dx := if bool_decide (dx > 0) then 1 else if bool_decide (dx < 0) then -1 else 0 in
  let norm_dy := if bool_decide (dy > 0) then 1 else if bool_decide (dy < 0) then -1 else 0 in
  put (set_lasers (lasers self ++ [mkLaser (mkPoint x y) (mkPoint norm_dx norm_dy)]) self).

(** [Board.add_target] *)
Definition add_target (x y : Z) : M unit :=
  self <- get ;;
  put (set_targets ({[mkPoint x y]} ∪ targets self) self).

(** [Board.is_valid_position] *)
Definition is_valid_position (self : Board) (p : Point) : bool :=
  bool_decide (0 <= x p) && bool_decide (x p < width self)
  && bool_decide (0 <= y p) && bool_decide (y p < height self).

(** ** Simulation of the lasers *)

(** [list.pop()]: the last element and the list without it. *)
Definition list_pop {T : Type} (l : list T) : option (T * list T) :=
  match reverse l with
  | [] => None
  | a :: r => Some (a, reverse r)
  end.

(** The inner [while True] loop of [Board.simulate_lasers]: the walk of one
    laser from [current]. It returns the set of visited points and the
    lasers the block it ran into gave back (none when it left the board). *)
Fixpoint walk (fuel : nat) (self : Board) (current direction : Point)
    (visited : gset Point) : Res (gset Point * list Laser) :=
  match fuel with
  | O => OutOfFuel
  | S fuel' =>
      let previous := current in
      let current := Point_add current direction in
      if negb (is_valid_position self current) then Ret (visited, [])
      else
        let visited := {[current]} ∪ visited in
        match grid self !! current with
        | Some block =>
            Res_bind (interact block (mkLaser previous direction))
                     (fun new_lasers => Ret (visited, new_lasers))
        | None => walk fuel' self current direction visited
        end
  end.

(** The outer [while active_lasers] loop. *)
Fixpoint simulate_loop (fuel : nat) (self : Board) (visited : gset Point)
    (visited_laser_origins : gset (Point * Point)) (active_lasers : list Laser)
    : Res (gset Point) :=
  match fuel with
  | O => OutOfFuel
  | S fuel' =>
      match list_pop active_lasers with
      | None => Ret visited
      | Some (laser, active_lasers) =>
          let current := origin laser in
          let direction := direction laser in
          let laser_id := (current, direction) in
          if bool_decide (laser_id ∈ visited_laser_origins) then
            simulate_loop fuel' self visited visited_laser_origins active_lasers
          else
            let visited_laser_origins := {[laser_id]} ∪ visited_laser_origins in
            match walk fuel' self current direction visited with
            | Ret (visited, new_lasers) =>
                simulate_loop fuel' self visited visited_laser_origins
                              (active_lasers ++ new_lasers)
            | Raise e => Raise e
            | OutOfFuel => OutOfFuel
            end
      end
  end.

(** [Board.simulate_lasers]: the loops work on local variables only; the
    working list of lasers is a deep copy of [self.lasers]. *)
Definition simulate_lasers (fuel : nat) : M (gset Point) :=
  self <- get ;;
  lift (simulate_loop fuel self ∅ ∅ (lasers self)).

(** [Board.is_solved] *)
Definition is_solved (fuel : nat) : M bool :=
  laser_paths <- simulate_lasers fuel ;;
  self <- get ;;
  ret (bool_decide (targets self ⊆ laser_paths)).

(** ** The placement search *)

(** The block [try_place] creates for [current_type] at [pos]. *)
Definition new_block (current_type : BlockType) (p : Point) : Block :=
  match current_type with
  | A => mkBlock ReflectBlock p false
  | B => mkBlock OpaqueBlock p false
  | C => mkBlock RefractBlock p false
  end.

(** [solution.pop()] *)
Definition solution_pop (solution : list Block) : M (list Block) :=
  match list_pop solution with
  | Some (_, solution) => ret solution
  | None => raise IndexError
  end.

(** The [for pos in board.empty_positions] loop of [try_place], for the
    block type [current_type = blocks_placable[index]]; [rec] is the
    recursive call [try_place(index + 1)]. The list [solution] of the
    enclosing [solver] is passed in and handed back with the result. *)
Fixpoint for_pos (current_type : BlockType)
    (rec : list Block -> M (bool * list Block))
    (positions : list Point) (solution : list Block) : M (bool * list Block) :=
  match positions with
  | [] => ret (false, solution)
  | p :: positions' =>
      board <- get ;;
      if bool_decide (p ∈ dom (grid board)) then
        for_pos current_type rec positions' solution
      else
        let block := new_block current_type p in
        add_block block ;;;
        let solution := solution ++ [block] in
        r <- rec solution ;;
        if r.1 then ret (true, r.2)
        else
          del_grid p ;;;
          solution <- solution_pop r.2 ;;
          for_pos current_type rec positions' solution
  end.

(** [try_place(index)], the closure of [solver]. [todo] is
    [blocks_placable[index:]]: it is empty when
    [index >= len(blocks_placable)], and otherwise its head is
    [blocks_placable[index]]. *)
Fixpoint try_place (fuel : nat) (todo : list BlockType) (index : nat)
    (solution : list Block) : M (bool * list Block) :=
  emit (TryPlace index) ;;;
  match todo with
  | [] =>
      solved <- is_solved fuel ;;
      ret (solved, solution)
  | current_type :: todo' =>
      board <- get ;;
      for_pos current_type (try_place fuel todo' (S index))
              (empty_positions board) solution
  end.

(** The list [blocks_placable] that [solver] builds from
    [board.available_blocks]. *)
Definition blocks_placable (board : Board) : list BlockType :=
  flat_map (fun item => replicate (Z.to_nat item.2) item.1) (available_blocks board).

(** [solver] *)
Definition solver (fuel : nat) : M (option (list Block)) :=
  board <- get ;;
  r <- try_place fuel (blocks_placable board) 0 [] ;;
  ret (if r.1 then Some r.2 else None).

(** ** The main block, from the parsed board on *)

Inductive Report : Type :=
  | SolutionSaved   (* save_solution, then "Solution is saved to ..." *)
  | NoSolution.     (* "No solution." *)

(** Python truth value of an [Optional[List[Block]]]. *)
Definition truthy (solution : option (list Block)) : bool :=
  match solution with
  | Some (_ :: _) => true
  | Some [] => false
  | None => false
  end.

(** The main block: the clock is read before parsing and after [solver]. *)
Definition main (fuel : nat) : M Report :=
  emit TimeRead ;;;
  solution <- solver fuel ;;
  emit TimeRead ;;;
  ret (if truthy solution then SolutionSaved else NoSolution).

(** ** Calling the simulation twice in a row *)

Definition simulate_twice (fuel1 fuel2 : nat) : M (gset Point * gset Point) :=
  first <- simulate_lasers fuel1 ;;
  second <- simulate_lasers fuel2 ;;
  ret (first, second).

(** ** Candidate placements of the search *)

(** The blocks [try_place] creates when it puts the types [todo], in order,
    at the positions [ps]. *)
Definition placed_at (todo : list BlockType) (ps : list Point) : list Block :=
  zip_with new_block todo ps.

(** The grid after [add_block] of each block of the list. *)
Definition place_blocks (blocks : list Block) (g : gmap Point Block)
    : gmap Point Block :=
  foldl (fun g block => <[pos block := block]> g) g blocks.

Definition with_placement (board : Board) (todo : list BlockType)
    (ps : list Point) : Board :=
  set_grid (place_blocks (placed_at todo ps) (grid board)) board.

(** A complete placement: one position for each block to place, the
    positions pairwise distinct, each one of [empty_positions] and free on
    the board. *)
Definition valid_placement (board : Board) (todo : list BlockType)
    (ps : list Point) : Prop :=
  length ps = length todo /\ NoDup ps /\
  forall p, p ∈ ps -> p ∈ empty_positions board /\ (p ∉ dom (grid board)).

(** The errors the interaction of a laser with a block can raise. *)
Definition geometry_error (e : Exception) : Prop :=
  match e with
  | UnexpectedEntry | UnexpectedPosition _ _ => True
  | AlreadyOccupied _ | KeyError _ | IndexError => False
  end.

(** What a call [try_place(index)] that returned has done: on [True] the
    board holds a complete placement that is solved and [solution] has its
    blocks appended; on [False] the board and [solution] are as before and
    no complete placement is solved. *)
Definition search_post (fuel : nat) (todo : list BlockType) (solution : list Block)
    (board : Board) (r : bool * list Block) (board' : Board) : Prop :=
  if r.1 then
    exists ps, valid_placement board todo ps /\
      r.2 = solution ++ placed_at todo ps /\
      board' = with_placement board todo ps /\
      is_solved fuel board' = Ret (true, board', [])
  else
    board' = board /\ r.2 = solution /\
    forall ps, valid_placement board todo ps ->
      is_solved fuel (with_placement board todo ps)
      = Ret (false, with_placement board todo ps, []).

(** The board after [add_block] of a new block of type [t] at [p]. *)
Definition placed (t : BlockType) (p : Point) (board : Board) : Board :=
  set_grid (<[p := new_block t p]> (grid board)) board.

(** The recursive call handed to [for_pos] behaves as [try_place] should. *)
Definition rec_ok (fuel : nat) (todo : list BlockType)
    (rec : list Block -> M (bool * list Block)) : Prop :=
  forall solution board r board' log,
    rec solution board = Ret (r, board', log) ->
    search_post fuel todo solution board r board' /\ (TimeRead ∉ log).

Definition rec_raises_geometry (rec : list Block -> M (bool * list Block)) : Prop :=
  forall solution board e, rec solution board = Raise e -> geometry_error e.

(** ** Reading the clock

    A run checks a deadline at the top of each recursive call when every
    entry of [try_place] in its log is followed by a reading of the clock. *)
Definition deadline_checked (log : list Event) : Prop :=
  forall i index, log !! i = Some (TryPlace index) -> log !! S i = Some TimeRead.

(** ** Boards used as examples *)

(** A 6x6 board with one laser going down the column x = 2 from (2,0), the
    target (2,0) behind the laser, and the free cells (4,4) and (2,2). *)
Definition column_board (available : list (BlockType * Z)) : Board :=
  mkBoard 6 6 ∅ [mkLaser (mkPoint 2 0) (mkPoint 0 1)] {[mkPoint 2 0]}
          available [mkPoint 4 4; mkPoint 2 2].

(** With one reflect block the board is solved by the block at (2,2), which
    sends the laser back through (2,0). *)
Definition board_mirror : Board := column_board [(A, 1); (B, 0); (C, 0)].

Definition board_mirror_solved : Board :=
  set_grid (<[mkPoint 2 2 := mkBlock ReflectBlock (mkPoint 2 2) false]> ∅) board_mirror.

(** With one opaque block no placement lights the target. *)
Definition board_unsolvable : Board := column_board [(A, 0); (B, 1); (C, 0)].

(** Nothing to place, and the target, now on the laser's way, is lit. *)
Definition board_already_solved : Board :=
  mkBoard 6 6 ∅ [mkLaser (mkPoint 2 0) (mkPoint 0 1)] {[mkPoint 2 3]}
          [(A, 0); (B, 0); (C, 0)] [mkPoint 4 4; mkPoint 2 2].

(** A laser that [add_laser 1 1 0 0] gives: its direction is (0,0). *)
Definition board_still : Board :=
  mkBoard 4 4 ∅ [mkLaser (mkPoint 1 1) (mkPoint 0 0)] ∅ [(A, 0); (B, 0); (C, 0)] [].

(** ** Bounds for the simulation *)

(** The directions a laser of direction [d] can take after any number of
    reflections. *)
Definition flips (d : Point) : list Point :=
  [d; mkPoint (x d) (- y d); mkPoint (- x d) (y d); mkPoint (- x d) (- y d)].

(** The origins lasers can have: those of the sources, and the positions of
    the blocks of the grid. *)
Definition laser_origins (board : Board) : gset Point :=
  list_to_set (origin <$> lasers board)
  ∪ list_to_set (pos <$> (map_to_list (grid board)).*2).

Definition laser_directions (board : Board) : gset Point :=
  list_to_set (flat_map flips (direction <$> lasers board)).

(** All the identifiers [(origin, direction)] a run of [simulate_lasers]
    can put into [visited_laser_origins]. *)
Definition laser_universe (board : Board) : gset (Point * Point) :=
  cprod (laser_origins board) (laser_directions board).

(** Fuel that is enough for one walk, and for a whole simulation. *)
Definition walk_fuel (board : Board) : nat :=
  Z.to_nat (Z.max (width board) (height board)) + 2.

Definition simulate_fuel (board : Board) : nat :=
  3 * size (laser_universe board) + length (lasers board) + walk_fuel board.

(** How many more points a walk from [current] can visit, counted along an
    axis on which the direction moves. *)
Definition steps_left (board : Board) (direction current : Point) : nat :=
  if bool_decide (0 < x direction) then Z.to_nat (width board - x current)
  else if bool_decide (x direction < 0) then Z.to_nat (x current + 1)
  else if bool_decide (0 < y direction) then Z.to_nat (height board - y current)
  else Z.to_nat (y current + 1).

(** A laser a block of the grid gives back to a laser of direction [d]. *)
Definition emitted_by (board : Board) (d : Point) (l : Laser) : Prop :=
  (exists p block, grid board !! p = Some block /\ origin l = pos block) /\
  direction l ∈ flips d.

(** The invariant of the outer loop: every identifier seen or waiting is
    one of the universe, and the lasers waiting move. *)
Definition loop_inv (board : Board) (seen : gset (Point * Point))
    (active : list Laser) : Prop :=
  seen ⊆ laser_universe board /\
  Forall (fun l => (origin l, direction l) ∈ laser_universe board /\
                   direction l <> mkPoint 0 0) active.


(** Two refract blocks facing each other on the row y = 2, with a laser
    between them: the lasers they give back run into the other block again. *)
Definition board_refractors : Board :=
  mkBoard 8 8
    (<[mkPoint 2 2 := mkBlock RefractBlock (mkPoint 2 2) true]>
       (<[mkPoint 6 2 := mkBlock RefractBlock (mkPoint 6 2) true]> ∅))
    [mkLaser (mkPoint 4 2) (mkPoint 1 0)] {[mkPoint 0 2]}
    [(A, 0); (B, 0); (C, 0)] [].

(** ** The points a laser touches

    [reaches board d start previous current]: a laser of direction [d]
    that leaves [start] steps onto [current] from [previous]; every point
    it steps on is inside the board, and the points before [current] hold
    no block. *)
Inductive reaches (board : Board) (d : Point) : Point -> Point -> Point -> Prop :=
  | reaches_first (start : Point) :
      is_valid_position board (Point_add start d) = true ->
      reaches board d start start (Point_add start d)
  | reaches_later (start previous current : Point) :
      is_valid_position board (Point_add start d) = true ->
      grid board !! Point_add start d = None ->
      reaches board d (Point_add start d) previous current ->
      reaches board d start previous current.

(** The lasers of a board: its sources, and the lasers a block gives back
    to a laser that runs into it. *)
Inductive beam (board : Board) : Laser -> Prop :=
  | beam_source (l : Laser) : l ∈ lasers board -> beam board l
  | beam_emitted (l : Laser) (previous current : Point) (block : Block)
      (out : list Laser) (l' : Laser) :
      beam board l ->
      reaches board (direction l) (origin l) previous current ->
      grid board !! current = Some block ->
      interact block (mkLaser previous (direction l)) = Ret out ->
      l' ∈ out ->
      beam board l'.

Definition touched (board : Board) (p : Point) : Prop :=
  exists l previous, beam board l /\
    reaches board (direction l) (origin l) previous p.

(** The identifier [(origin, direction)] of a laser has been expanded: the
    points it touches are visited, and the lasers it gets back from a block
    are waiting or have been seen. *)
Definition expanded (board : Board) (visited : gset Point)
    (seen : gset (Point * Point)) (active : list Laser) (id : Point * Point) : Prop :=
  forall previous current, reaches board id.2 id.1 previous current ->
    current ∈ visited /\
    forall block out l', grid board !! current = Some block ->
      interact block (mkLaser previous id.2) = Ret out -> l' ∈ out ->
      l' ∈ active \/ (origin l', direction l') ∈ seen.

(** ** Directions of the lasers *)

(** A direction along one axis: exactly one component is zero. *)
Definition axis_aligned (d : Point) : bool :=
  xorb (bool_decide (x d = 0)) (bool_decide (y d = 0)).

(** The opposite direction. *)
Definition reversed (d : Point) : Point := mkPoint (- x d) (- y d).

(** A direction along a diagonal: both components are 1 or -1. *)
Definition diagonal (d : Point) : bool :=
  bool_decide (Z.abs (x d) = 1) && bool_decide (Z.abs (y d) = 1).

(** Points whose coordinates add up to an odd number, and points whose
    coordinates are both even. *)
Definition odd_sum (p : Point) : bool := Z.odd (x p + y p).

Definition even_point (p : Point) : bool := Z.even (x p) && Z.even (y p).

(** ** Well-formed grids *)

(** Every block of the grid is stored under its own position, as
    [add_block] stores it. *)
Definition keys_are_positions (board : Board) : Prop :=
  forall p block, grid board !! p = Some block -> pos block = p.


(** A laser can run a step from [previous] onto the block at [current]. *)
Definition runs_into (board : Board) (l : Laser) (previous : Point) (block : Block)
    : Prop :=
  exists current, reaches board (direction l) (origin l) previous current /\
                  grid board !! current = Some block.

(** ** Boards used as examples, continued *)

(** A laser going down the column x = 2 onto a reflect block at (2,4). *)
Definition board_column_mirror : Board :=
  mkBoard 6 6 (<[mkPoint 2 4 := mkBlock ReflectBlock (mkPoint 2 4) true]> ∅)
          [mkLaser (mkPoint 2 0) (mkPoint 0 1)] {[mkPoint 2 2]}
          [(A, 0); (B, 0); (C, 0)] [].

(** A diagonal laser from (0,0) onto a reflect block at (2,2). *)
Definition board_diagonal_mirror : Board :=
  mkBoard 6 6 (<[mkPoint 2 2 := mkBlock ReflectBlock (mkPoint 2 2) true]> ∅)
          [mkLaser (mkPoint 0 0) (mkPoint 1 1)] {[mkPoint 4 4]}
          [(A, 0); (B, 0); (C, 0)] [].

(** A diagonal laser from (1,0), as the board files have them, and an
    opaque block at (2,2). *)
Definition board_diagonal_pass : Board :=
  mkBoard 6 6 (<[mkPoint 2 2 := mkBlock OpaqueBlock (mkPoint 2 2) true]> ∅)
          [mkLaser (mkPoint 1 0) (mkPoint 1 1)] {[mkPoint 4 3]}
          [(A, 0); (B, 0); (C, 0)] [mkPoint 4 4].


(** ** Lasers and the errors of the interaction *)

(** The laser with identifier [id] meets no block whose [interact] raises. *)
Definition safe (board : Board) (id : Point * Point) : Prop :=
  forall previous current block, reaches board id.2 id.1 previous current ->
    grid board !! current = Some block ->
    exists out, interact block (mkLaser previous id.2) = Ret out.

(** The point [p] is on the line through the origin of [l] along its
    (axis-aligned) direction. *)
Definition on_line (l : Laser) (p : Point) : Prop :=
  if bool_decide (x (direction l) = 0) then x p = x (origin l)
  else y p = y (origin l).

(** Every block of the grid sits on a point with two even coordinates. *)
Definition even_keys (g : gmap Point Block) : Prop :=
  forall p, p ∈ dom g -> even_point p = true.

(** The sources start on points with an odd coordinate sum and run along
    a diagonal. *)
Definition odd_diagonal_sources (board : Board) : Prop :=
  forall l, l ∈ lasers board -> odd_sum (origin l) = true /\ diagonal (direction l) = true.

(** ** The search and its oracle *)



(** ** Straight rays *)


(** The point [k] steps from the origin of [l] along its direction. *)
Definition ray_point (l : Laser) (k : Z) : Point :=
  mkPoint (x (origin l) + k * x (direction l)) (y (origin l) + k * y (direction l)).

(** The first [k] steps of [l] stay inside the board. *)
Definition ray_inside (board : Board) (l : Laser) (k : Z) : Prop :=
  forall i, 1 <= i <= k -> is_valid_position board (ray_point l i) = true.

(** A 4x4 board without blocks, with a target on its right edge. *)
Definition board_edge_target : Board :=
  mkBoard 4 4 ∅ [mkLaser (mkPoint 0 1) (mkPoint 1 0)] {[mkPoint 4 1]}
          [(A, 1); (B, 0); (C, 0)] [mkPoint 2 2].

(** ** Reading a board file

    [parse_bff] reads the lines of the file into the local variables
    [grid] (the rows of cells between GRID START and GRID STOP),
    [available_blocks], [lasers] and [targets], and then builds the board
    from them. The model starts after the loop over the lines, from the
    values of these variables. *)

Definition set_available_blocks (blocks : list (BlockType * Z)) (b : Board) : Board :=
  mkBoard (width b) (height b) (grid b) (lasers b) (targets b)
          blocks (empty_positions b).

Definition set_empty_positions (ps : list Point) (b : Board) : Board :=
  mkBoard (width b) (height b) (grid b) (lasers b) (targets b)
          (available_blocks b) ps.

(** The body of the loops over the cells, for the cell at column [x] of
    row [y]. *)
Definition place_cell (x y : Z) (cell : string) : M unit :=
  let pos := mkPoint (x * 2) (y * 2) in
  if bool_decide (cell = "o") then
    board <- get ;;
    put (set_empty_positions (empty_positions board ++ [pos]) board)
  else if bool_decide (cell = "A") then add_block (mkBlock ReflectBlock pos true)
  else if bool_decide (cell = "B") then add_block (mkBlock OpaqueBlock pos true)
  else if bool_decide (cell = "C") then add_block (mkBlock RefractBlock pos true)
  else ret tt.

(** [for x, cell in enumerate(row)], from the column [x] on. *)
Fixpoint for_cells (y x : Z) (row : list string) : M unit :=
  match row with
  | [] => ret tt
  | cell :: row' => place_cell x y cell ;;; for_cells y (x + 1) row'
  end.

(** [for y, row in enumerate(grid)], from the row [y] on. *)
Fixpoint for_rows (y : Z) (grid : list (list string)) : M unit :=
  match grid with
  | [] => ret tt
  | row :: grid' => for_cells y 0 row ;;; for_rows (y + 1) grid'
  end.

(** [board.available_blocks = available_blocks] *)
Definition assign_available_blocks (blocks : list (BlockType * Z)) : M unit :=
  board <- get ;;
  put (set_available_blocks blocks board).

Fixpoint for_lasers (lasers : list (Z * Z * Z * Z)) : M unit :=
  match lasers with
  | [] => ret tt
  | (x, y, norm_dx, norm_dy) :: lasers' =>
      add_laser x y norm_dx norm_dy ;;; for_lasers lasers'
  end.

Fixpoint for_targets (targets : list (Z * Z)) : M unit :=
  match targets with
  | [] => ret tt
  | (x, y) :: targets' => add_target x y ;;; for_targets targets'
  end.

(** [parse_bff], from the first [print] on. The expression [grid[0]] of
    that [print] raises [IndexError] on an empty grid. *)
Definition parse_bff_board (grid : list (list string))
    (available_blocks : list (BlockType * Z)) (lasers : list (Z * Z * Z * Z))
    (targets : list (Z * Z)) : Res (list (list string) * Board) :=
  match grid with
  | [] => Raise IndexError
  | row0 :: _ =>
      let height := Z.of_nat (length grid) in
      let width := if bool_decide (height > 0) then Z.of_nat (length row0) else 0 in
      let board := Board_init (width * 2) (height * 2) in
      Res_bind ((for_rows 0 grid ;;;
                 assign_available_blocks available_blocks ;;;
                 for_lasers lasers ;;;
                 for_targets targets) board)
               (fun r => Ret (grid, r.1.2))
  end.

(** ** Writing the solution *)

(** The string of the one character of a line end. *)
Definition newline : string := String (Ascii.ascii_of_nat 10) EmptyString.

(** The loop over the cells of a row of [save_solution], from the column
    [x] on; [solution_row] is the list built so far. *)
Fixpoint for_solution_cells (board : Board) (y x : Z) (row : list string)
    (solution_row : list string) : list string :=
  match row with
  | [] => solution_row
  | cell :: row' =>
      let pos := mkPoint (x * 2) (y * 2) in
      let solution_row :=
        if bool_decide (cell = "x") then solution_row ++ ["x"]
        else if bool_decide (cell = "o") then
          match grid board !! pos with
          | Some block =>
              match class block with
              | ReflectBlock => solution_row ++ ["A"]
              | OpaqueBlock => solution_row ++ ["B"]
              | RefractBlock => solution_row ++ ["C"]
              end
          | None => solution_row ++ ["o"]
          end
        else solution_row ++ [cell] in
      for_solution_cells board y (x + 1) row' solution_row
  end.

(** The loop over the rows: the strings it writes. *)
Fixpoint for_solution_rows (board : Board) (y : Z) (grid : list (list string))
    : list string :=
  match grid with
  | [] => []
  | row :: grid' =>
      (String.concat " " (for_solution_cells board y 0 row []) +:+ newline)
      :: for_solution_rows board (y + 1) grid'
  end.

(** [save_solution]: the strings written to the file, in order. *)
Definition save_solution (board : Board) (grid : list (list string)) : list string :=
  ["GRID START" +:+ newline] ++ for_solution_rows board 0 grid
  ++ ["GRID STOP" +:+ newline].

(** ** The cells of a grid, for the statements *)

(** The block a cell stands for. *)
Definition block_of_cell (p : Point) (cell : string) : option Block :=
  if bool_decide (cell = "A") then Some (mkBlock ReflectBlock p true)
  else if bool_decide (cell = "B") then Some (mkBlock OpaqueBlock p true)
  else if bool_decide (cell = "C") then Some (mkBlock RefractBlock p true)
  else None.

(** The cell at column [i] of row [j]. *)
Definition cell_at (grid : list (list string)) (i j : nat) : option string :=
  match grid !! j with
  | Some row => row !! i
  | None => None
  end.

(** The point of the board of the cell at column [i] of row [j]. *)
Definition cell_point (i j : nat) : Point := mkPoint (Z.of_nat i * 2) (Z.of_nat j * 2).

(** The cells of a row and of a grid with their points, in the order of
    the loops. *)
Fixpoint row_cells (y x : Z) (row : list string) : list (Point * string) :=
  match row with
  | [] => []
  | cell :: row' => (mkPoint (x * 2) (y * 2), cell) :: row_cells y (x + 1) row'
  end.

Fixpoint grid_cells (y : Z) (grid : list (list string)) : list (Point * string) :=
  match grid with
  | [] => []
  | row :: grid' => row_cells y 0 row ++ grid_cells (y + 1) grid'
  end.

(** What reading one cell does to the board when its point is free. *)
Definition read_cell (b : Board) (pc : Point * string) : Board :=
  if bool_decide (pc.2 = "o") then set_empty_positions (empty_positions b ++ [pc.1]) b
  else match block_of_cell pc.1 pc.2 with
       | Some block => set_grid (<[pc.1 := block]> (grid b)) b
       | None => b
       end.

Definition read_cells (cells : list (Point * string)) (b : Board) : Board :=
  foldl read_cell b cells.

Definition fresh_cells (cells : list (Point * string)) (b : Board) : Prop :=
  NoDup cells.*1 /\ forall p, p ∈ cells.*1 -> p ∉ dom (grid b).

(** The laser [add_laser] makes of an entry of [lasers]. *)
Definition laser_of_entry (entry : Z * Z * Z * Z) : Laser :=
  let '(x, y, dx, dy) := entry in mkLaser (mkPoint x y) (mkPoint (Z.sgn dx) (Z.sgn dy)).

Definition target_of_entry (entry : Z * Z) : Point := mkPoint entry.1 entry.2.

(** The cell [save_solution] writes for the cell [cell] at the point [p]. *)
Definition solution_cell (board : Board) (p : Point) (cell : string) : string :=
  if bool_decide (cell = "x") then "x"
  else if bool_decide (cell = "o") then
    match grid board !! p with
    | Some block =>
        match class block with
        | ReflectBlock => "A"
        | OpaqueBlock => "B"
        | RefractBlock => "C"
        end
    | None => "o"
    end
  else cell.

(** The rows [save_solution] joins and writes. *)
Fixpoint solution_row_from (board : Board) (y x : Z) (row : list string) : list string :=
  match row with
  | [] => []
  | cell :: row' =>
      solution_cell board (mkPoint (x * 2) (y * 2)) cell
      :: solution_row_from board y (x + 1) row'
  end.

Fixpoint solution_rows_from (board : Board) (y : Z) (grid : list (list string))
    : list (list string) :=
  match grid with
  | [] => []
  | row :: grid' => solution_row_from board y 0 row :: solution_rows_from board (y + 1) grid'
  end.

Definition solution_rows (board : Board) (grid : list (list string))
    : list (list string) :=
  solution_rows_from board 0 grid.

(** The block with the flag [fixed] set. *)
Definition as_fixed (block : Block) : Block := mkBlock (class block) (pos block) true.

(** The board [parse_bff] returns for a grid that is not empty. *)
Definition parsed_board (rows : list (list string)) (row0 : list string)
    (blocks : list (BlockType * Z)) (entries : list (Z * Z * Z * Z))
    (marks : list (Z * Z)) : Board :=
  let b := read_cells (grid_cells 0 rows)
             (Board_init (Z.of_nat (length row0) * 2) (Z.of_nat (length rows) * 2)) in
  mkBoard (width b) (height b) (grid b) (lasers b ++ (laser_of_entry <$> entries))
          (list_to_set (target_of_entry <$> marks) ∪ targets b) blocks
          (empty_positions b).


(** The line [save_solution] writes for a row of cells. *)
Definition solution_line (solution_row : list string) : string :=
  String.concat " " solution_row +:+ newline.

(** A small board file: two rows of two cells, one laser, one target. *)
Definition rows_example : list (list string) := [["o"; "A"]; ["x"; "o"]].

Definition board_example : Board :=
  parsed_board rows_example ["o"; "A"] [(A, 0); (B, 1); (C, 0)] [(1, 0, 1, 1)] [(3, 2)].


(** * Properties *)

(** ** The monad *)

Lemma bind_Ret {T U : Type} (m : M T) (k : T -> M U) b c b2 log :
  bind m k b = Ret (c, b2, log) ->
  exists a b1 log1 log2,
    m b = Ret (a, b1, log1) /\ k a b1 = Ret (c, b2, log2) /\ log = log1 ++ log2.
Proof.
  unfold bind. destruct (m b) as [[[a b1] log1]| |]; try discriminate.
  destruct (k a b1) as [[[c' b2'] log2]| |] eqn:Hk; try discriminate.
  intros [= -> -> <-]. eauto 10.
Qed.

Lemma bind_Raise {T U : Type} (m : M T) (k : T -> M U) b e :
  bind m k b = Raise e ->
  m b = Raise e \/ exists a b1 log1, m b = Ret (a, b1, log1) /\ k a b1 = Raise e.
Proof.
  unfold bind. destruct (m b) as [[[a b1] log1]| |]; try discriminate.
  - destruct (k a b1) as [[[c' b2'] log2]| |] eqn:Hk; try discriminate.
    intros [= ->]. right. eauto.
  - intros [= ->]. by left.
Qed.

(** A step [get], [emit], [ret] or [put] that returned: its value, board and
    log are the evident ones. *)
Ltac step_done H :=
  unfold get, emit, ret, put in H; injection H as <- <- <-.

(** ** Interaction of a laser with a block *)

Lemma entry_side_top_bottom (p q : Point) :
  x p = x q -> y p <> y q ->
  bool_decide (x p = x q) && negb (bool_decide (y p = y q)) = true.
Proof.
  intros Hx Hy. rewrite (bool_decide_eq_true_2 _ Hx), (bool_decide_eq_false_2 _ Hy).
  reflexivity.
Qed.

Lemma entry_side_left_right (p q : Point) :
  y p = y q -> x p <> x q ->
  bool_decide (x p = x q) && negb (bool_decide (y p = y q)) = false /\
  bool_decide (y p = y q) && negb (bool_decide (x p = x q)) = true.
Proof.
  intros Hy Hx. rewrite (bool_decide_eq_true_2 _ Hy), (bool_decide_eq_false_2 _ Hx).
  split; reflexivity.
Qed.

Lemma entry_side_neither (p q : Point) :
  (x p <> x q /\ y p <> y q) \/ p = q ->
  bool_decide (x p = x q) && negb (bool_decide (y p = y q)) = false /\
  bool_decide (y p = y q) && negb (bool_decide (x p = x q)) = false.
Proof.
  intros [[Hx Hy] | ->].
  - rewrite (bool_decide_eq_false_2 _ Hx), (bool_decide_eq_false_2 _ Hy). by split.
  - rewrite !bool_decide_eq_true_2 by reflexivity. by split.
Qed.

(** C1: a reflect block gives back one laser at its own position, with the
    y-component of the direction negated when the laser's origin shares the
    block's x-coordinate and differs in y, with the x-component negated when
    the origin shares the y-coordinate and differs in x, and raises when the
    origin differs on both axes or is the block's position. *)
Theorem reflect_interact_spec (self : Block) (laser : Laser) :
  class self = ReflectBlock ->
  (x (origin laser) = x (pos self) -> y (origin laser) <> y (pos self) ->
   interact self laser =
     Ret [mkLaser (pos self) (mkPoint (x (direction laser)) (- y (direction laser)))]) /\
  (y (origin laser) = y (pos self) -> x (origin laser) <> x (pos self) ->
   interact self laser =
     Ret [mkLaser (pos self) (mkPoint (- x (direction laser)) (y (direction laser)))]) /\
  ((x (origin laser) <> x (pos self) /\ y (origin laser) <> y (pos self))
   \/ origin laser = pos self ->
   interact self laser = Raise UnexpectedEntry).
Proof.
  intros Hclass. unfold interact. rewrite Hclass. unfold ReflectBlock_interact.
  split; [|split].
  - intros Hx Hy. by rewrite entry_side_top_bottom.
  - intros Hy Hx. destruct (entry_side_left_right _ _ Hy Hx) as [-> ->]. reflexivity.
  - intros H. destruct (entry_side_neither _ _ H) as [-> ->]. reflexivity.
Qed.

(** The entry of the spec: the block at (2,2) entered from (2,1), the cell
    above, with direction (1,-1). *)
Lemma reflect_interact_spec_witness :
  interact (mkBlock ReflectBlock (mkPoint 2 2) false)
           (mkLaser (mkPoint 2 1) (mkPoint 1 (-1)))
  = Ret [mkLaser (mkPoint 2 2) (mkPoint 1 1)].
Proof.
  apply (reflect_interact_spec (mkBlock ReflectBlock (mkPoint 2 2) false)
           (mkLaser (mkPoint 2 1) (mkPoint 1 (-1))) eq_refl).
  - reflexivity.
  - simpl. lia.
Defined.

(** C5: a refract block entered on exactly one axis gives back two lasers at
    its own position, the transmitted one (direction unchanged) first and
    the reflected one second; it raises when the origin differs on both axes
    or is the block's position. *)
Theorem refract_interact_spec (self : Block) (laser : Laser) :
  class self = RefractBlock ->
  let transmitted :=
    mkLaser (pos self) (mkPoint (x (direction laser)) (y (direction laser))) in
  (x (origin laser) = x (pos self) -> y (origin laser) <> y (pos self) ->
   interact self laser =
     Ret [transmitted;
          mkLaser (pos self) (mkPoint (x (direction laser)) (- y (direction laser)))]) /\
  (y (origin laser) = y (pos self) -> x (origin laser) <> x (pos self) ->
   interact self laser =
     Ret [transmitted;
          mkLaser (pos self) (mkPoint (- x (direction laser)) (y (direction laser)))]) /\
  ((x (origin laser) <> x (pos self) /\ y (origin laser) <> y (pos self))
   \/ origin laser = pos self ->
   interact self laser = Raise (UnexpectedPosition (origin laser) (pos self))).
Proof.
  intros Hclass. unfold interact. rewrite Hclass. unfold RefractBlock_interact.
  split; [|split].
  - intros Hx Hy. by rewrite entry_side_top_bottom.
  - intros Hy Hx. destruct (entry_side_left_right _ _ Hy Hx) as [-> ->]. reflexivity.
  - intros H. destruct (entry_side_neither _ _ H) as [-> ->]. reflexivity.
Qed.

(** The call of [reflection_test] in [Unit_test.py], a laser whose origin is
    the block's own position, raises; the test expects a laser back. *)
Example reflection_test_input_raises :
  interact (mkBlock ReflectBlock (mkPoint 2 2) false)
           (mkLaser (mkPoint 2 2) (mkPoint 1 (-1)))
  = Raise UnexpectedEntry.
Proof. reflexivity. Qed.

Lemma refract_interact_spec_witness :
  interact (mkBlock RefractBlock (mkPoint 2 2) false)
           (mkLaser (mkPoint 2 1) (mkPoint 1 (-1)))
  = Ret [mkLaser (mkPoint 2 2) (mkPoint 1 (-1)); mkLaser (mkPoint 2 2) (mkPoint 1 1)].
Proof.
  apply (refract_interact_spec (mkBlock RefractBlock (mkPoint 2 2) false)
           (mkLaser (mkPoint 2 1) (mkPoint 1 (-1))) eq_refl).
  - reflexivity.
  - simpl. lia.
Defined.

(** ** Adding a laser *)

Lemma normalise_sgn (d : Z) :
  (if bool_decide (d > 0) then 1 else if bool_decide (d < 0) then -1 else 0) = Z.sgn d.
Proof. repeat case_bool_decide; lia. Qed.

(** C9: [add_laser] appends one laser whose direction is the component-wise
    sign of (dx, dy): 1 for a positive component, -1 for a negative one and
    0 for zero. *)
Theorem add_laser_sign (x0 y0 dx dy : Z) (self : Board) :
  add_laser x0 y0 dx dy self =
    Ret (tt,
         set_lasers (lasers self ++ [mkLaser (mkPoint x0 y0) (mkPoint (Z.sgn dx) (Z.sgn dy))])
                    self,
         []).
Proof.
  unfold add_laser, bind, get, put. simpl. by rewrite !normalise_sgn.
Qed.

(** ** The simulation does not depend on the fuel, and leaves the board alone *)

Lemma walk_fuel_mono (fuel fuel' : nat) self current dir visited :
  (fuel <= fuel')%nat ->
  walk fuel self current dir visited <> OutOfFuel ->
  walk fuel' self current dir visited = walk fuel self current dir visited.
Proof.
  revert fuel' current visited.
  induction fuel as [|fuel IH]; intros fuel' current visited Hle Hrun.
  - by destruct Hrun.
  - destruct fuel' as [|fuel']; [lia|]. simpl in *.
    destruct (negb _); [done|].
    destruct (grid self !! _); [done|].
    apply IH; [lia|done].
Qed.

Lemma simulate_loop_fuel_mono (fuel fuel' : nat) self visited seen active :
  (fuel <= fuel')%nat ->
  simulate_loop fuel self visited seen active <> OutOfFuel ->
  simulate_loop fuel' self visited seen active
  = simulate_loop fuel self visited seen active.
Proof.
  revert fuel' visited seen active.
  induction fuel as [|fuel IH]; intros fuel' visited seen active Hle Hrun.
  - by destruct Hrun.
  - destruct fuel' as [|fuel']; [lia|]. simpl in *.
    destruct (list_pop active) as [[laser rest]|]; [|done].
    case_bool_decide.
    + apply IH; [lia|done].
    + destruct (walk fuel self _ _ visited) as [[v new]| |] eqn:Hwalk; [| |done].
      * rewrite (walk_fuel_mono fuel fuel'), Hwalk; [|lia|by rewrite Hwalk].
        apply IH; [lia|done].
      * rewrite (walk_fuel_mono fuel fuel'), Hwalk; [done|lia|by rewrite Hwalk].
Qed.

Lemma simulate_lasers_Ret (fuel : nat) self v self' log :
  simulate_lasers fuel self = Ret (v, self', log) ->
  simulate_loop fuel self ∅ ∅ (lasers self) = Ret v /\ self' = self /\ log = [].
Proof.
  unfold simulate_lasers, bind, get, lift.
  destruct (simulate_loop fuel self ∅ ∅ (lasers self)); try discriminate.
  by intros [= -> -> <-].
Qed.

Lemma simulate_lasers_of_loop (fuel : nat) self v :
  simulate_loop fuel self ∅ ∅ (lasers self) = Ret v ->
  simulate_lasers fuel self = Ret (v, self, []).
Proof. unfold simulate_lasers, bind, get, lift. by intros ->. Qed.

Lemma simulate_loop_deterministic (fuel1 fuel2 : nat) self visited seen active v1 v2 :
  simulate_loop fuel1 self visited seen active = Ret v1 ->
  simulate_loop fuel2 self visited seen active = Ret v2 ->
  v1 = v2.
Proof.
  intros H1 H2.
  assert (simulate_loop (fuel1 `max` fuel2) self visited seen active = Ret v1) as E1.
  { rewrite <- H1. apply simulate_loop_fuel_mono; [lia|by rewrite H1]. }
  assert (simulate_loop (fuel1 `max` fuel2) self visited seen active = Ret v2) as E2.
  { rewrite <- H2. apply simulate_loop_fuel_mono; [lia|by rewrite H2]. }
  congruence.
Qed.

(** C8: two calls of [simulate_lasers] in a row, with nothing done to the
    board in between, return equal sets (and the board is still the one the
    first call was given). *)
Theorem simulate_twice_equal (fuel1 fuel2 : nat) self first second self' log :
  simulate_twice fuel1 fuel2 self = Ret ((first, second), self', log) ->
  first = second /\ self' = self.
Proof.
  unfold simulate_twice. intros H.
  apply bind_Ret in H as (v1 & b1 & l1 & l1' & H1 & H & ->).
  apply bind_Ret in H as (v2 & b2 & l2 & l2' & H2 & H & ->).
  apply simulate_lasers_Ret in H1 as (H1 & -> & ->).
  apply simulate_lasers_Ret in H2 as (H2 & -> & ->).
  unfold ret in H. injection H as <- <- <- _.
  split; [|done]. eapply simulate_loop_deterministic; eauto.
Qed.

(** When one call returns, so do two calls in a row. *)
Lemma simulate_twice_returns (fuel : nat) self v self' log :
  simulate_lasers fuel self = Ret (v, self', log) ->
  simulate_twice fuel fuel self = Ret ((v, v), self, []).
Proof.
  intros H. apply simulate_lasers_Ret in H as (H & -> & ->).
  unfold simulate_twice, bind. rewrite !(simulate_lasers_of_loop _ _ _ H). done.
Qed.

Lemma simulate_twice_equal_witness :
  (list_to_set [mkPoint 0 2; mkPoint 1 2; mkPoint 2 2; mkPoint 3 2;
                mkPoint 4 2; mkPoint 5 2; mkPoint 6 2; mkPoint 7 2] : gset Point)
  = list_to_set [mkPoint 7 2; mkPoint 6 2; mkPoint 5 2; mkPoint 4 2;
                 mkPoint 3 2; mkPoint 2 2; mkPoint 1 2; mkPoint 0 2]
  /\ board_refractors = board_refractors.
Proof.
  apply (simulate_twice_equal 20 30 board_refractors _ _ _ []).
  vm_compute. reflexivity.
Defined.

(** ** The board primitives *)

Lemma set_grid_id (board : Board) : set_grid (grid board) board = board.
Proof. by destruct board. Qed.

Lemma set_grid_set_grid g g' (board : Board) :
  set_grid g (set_grid g' board) = set_grid g board.
Proof. reflexivity. Qed.

Lemma add_block_free (block : Block) (board : Board) :
  pos block ∉ dom (grid board) ->
  add_block block board
  = Ret (tt, set_grid (<[pos block := block]> (grid board)) board, []).
Proof.
  intros Hfree. unfold add_block, bind, get.
  by rewrite bool_decide_eq_false_2.
Qed.

Lemma add_block_occupied (block : Block) (board : Board) :
  pos block ∈ dom (grid board) ->
  add_block block board = Raise (AlreadyOccupied (pos block)).
Proof.
  intros Hocc. unfold add_block, bind, get.
  by rewrite bool_decide_eq_true_2.
Qed.

Lemma del_grid_present (p : Point) (board : Board) :
  p ∈ dom (grid board) ->
  del_grid p board = Ret (tt, set_grid (delete p (grid board)) board, []).
Proof.
  intros Hin. unfold del_grid, bind, get.
  by rewrite bool_decide_eq_true_2.
Qed.

(** Placing a block on a free position and deleting it again gives the
    board back. *)
Lemma add_then_del (block : Block) (board : Board) :
  pos block ∉ dom (grid board) ->
  set_grid (delete (pos block) (<[pos block := block]> (grid board))) board = board.
Proof.
  intros Hfree. rewrite delete_insert_eq, delete_id.
  - apply set_grid_id.
  - by apply not_elem_of_dom.
Qed.

Lemma list_pop_snoc {T : Type} (l : list T) (a : T) :
  list_pop (l ++ [a]) = Some (a, l).
Proof. unfold list_pop. rewrite reverse_snoc. simpl. by rewrite reverse_involutive. Qed.

Lemma list_pop_nil {T : Type} : list_pop (@nil T) = None.
Proof. reflexivity. Qed.

Lemma list_pop_Some {T : Type} (l r : list T) (a : T) :
  list_pop l = Some (a, r) -> l = r ++ [a].
Proof.
  unfold list_pop. destruct (reverse l) as [|a' r'] eqn:Hrev; [done|].
  intros [= -> <-]. rewrite <- (reverse_involutive l), Hrev. apply reverse_cons.
Qed.

Lemma pos_new_block (t : BlockType) (p : Point) : pos (new_block t p) = p.
Proof. by destruct t. Qed.

(** ** The simulation as the oracle of the search *)

Lemma interact_Raise (block : Block) (laser : Laser) e :
  interact block laser = Raise e -> geometry_error e.
Proof.
  unfold interact, ReflectBlock_interact, OpaqueBlock_interact, RefractBlock_interact.
  destruct (class block); repeat destruct (_ && _); intros [= <-]; done.
Qed.

Lemma walk_Raise (fuel : nat) self current dir visited e :
  walk fuel self current dir visited = Raise e -> geometry_error e.
Proof.
  revert current visited. induction fuel as [|fuel IH]; intros current visited; [done|].
  simpl. destruct (negb _); [done|].
  destruct (grid self !! _) as [block|]; [|apply IH].
  destruct (interact block _) eqn:Hint; simpl; try done.
  intros [= <-]. by eapply interact_Raise.
Qed.

Lemma simulate_loop_Raise (fuel : nat) self visited seen active e :
  simulate_loop fuel self visited seen active = Raise e -> geometry_error e.
Proof.
  revert visited seen active.
  induction fuel as [|fuel IH]; intros visited seen active; [done|].
  simpl. destruct (list_pop active) as [[laser rest]|]; [|done].
  case_bool_decide; [apply IH|].
  destruct (walk fuel self _ _ visited) as [[v new]| |] eqn:Hwalk; [apply IH| |done].
  intros [= <-]. by eapply walk_Raise.
Qed.

Lemma is_solved_Ret (fuel : nat) board solved board' log :
  is_solved fuel board = Ret (solved, board', log) ->
  board' = board /\ log = [] /\
  exists v, simulate_loop fuel board ∅ ∅ (lasers board) = Ret v /\
            solved = bool_decide (targets board ⊆ v).
Proof.
  unfold is_solved. intros H.
  apply bind_Ret in H as (v & b1 & l1 & l2 & H1 & H & ->).
  apply simulate_lasers_Ret in H1 as (H1 & -> & ->).
  unfold bind, get, ret in H. injection H as <- <- <-. eauto.
Qed.

Lemma is_solved_of_loop (fuel : nat) board v :
  simulate_loop fuel board ∅ ∅ (lasers board) = Ret v ->
  is_solved fuel board = Ret (bool_decide (targets board ⊆ v), board, []).
Proof.
  intros H. unfold is_solved, bind. by rewrite (simulate_lasers_of_loop _ _ _ H).
Qed.

Lemma is_solved_Raise (fuel : nat) board e :
  is_solved fuel board = Raise e -> geometry_error e.
Proof.
  unfold is_solved, simulate_lasers, bind, get, lift, ret.
  destruct (simulate_loop fuel board ∅ ∅ (lasers board)) eqn:Hsim; try done.
  intros [= <-]. by eapply simulate_loop_Raise.
Qed.

(** ** The placement search *)

Lemma valid_placement_cons board t todo p ps :
  valid_placement board (t :: todo) (p :: ps) <->
  p ∈ empty_positions board /\ (p ∉ dom (grid board)) /\
  valid_placement (placed t p board) todo ps.
Proof.
  unfold valid_placement, placed. simpl. rewrite NoDup_cons. split.
  - intros (Hlen & [Hnotin Hnd] & Hall).
    destruct (Hall p) as [Hp1 Hp2]; [by left|].
    split; [done|]. split; [done|]. split; [lia|]. split; [done|].
    intros q Hq. destruct (Hall q) as [Hq1 Hq2]; [by right|].
    split; [done|]. rewrite dom_insert_L.
    intros [->%elem_of_singleton|Hd]%elem_of_union; done.
  - intros (Hp1 & Hp2 & Hlen & Hnd & Hall).
    split; [lia|]. split.
    + split; [|done]. intros Hin. destruct (Hall p Hin) as [_ Hn].
      apply Hn. rewrite dom_insert_L. apply elem_of_union_l. by apply elem_of_singleton.
    + intros q [->|Hin]%elem_of_cons; [done|].
      destruct (Hall q Hin) as [Hq1 Hn]. split; [done|].
      intros Hd. apply Hn. rewrite dom_insert_L. by apply elem_of_union_r.
Qed.

Lemma valid_placement_nil board ps : valid_placement board [] ps <-> ps = [].
Proof.
  unfold valid_placement. split.
  - intros (Hlen & _). by destruct ps.
  - intros ->. split; [done|]. split; [constructor|].
    intros p Hp. by apply elem_of_nil in Hp.
Qed.

Lemma with_placement_cons board t todo p ps :
  with_placement board (t :: todo) (p :: ps)
  = with_placement (placed t p board) todo ps.
Proof. unfold with_placement, placed_at, placed. simpl. by rewrite pos_new_block. Qed.

Lemma with_placement_nil board ps : with_placement board [] ps = board.
Proof. unfold with_placement. simpl. apply set_grid_id. Qed.

(** The lemmas on [for_pos] and [try_place] are for one amount of fuel,
    the one every call of [is_solved] of the search gets. *)
Section Search.

Variable fuel : nat.

Lemma for_pos_Ret t todo rec :
  rec_ok fuel todo rec ->
  forall positions sol b r b' log,
    for_pos t rec positions sol b = Ret (r, b', log) ->
    (TimeRead ∉ log) /\
    if r.1 then
      exists p ps, p ∈ positions /\ (p ∉ dom (grid b)) /\
        valid_placement (placed t p b) todo ps /\
        r.2 = sol ++ new_block t p :: placed_at todo ps /\
        b' = with_placement (placed t p b) todo ps /\
        is_solved fuel b' = Ret (true, b', [])
    else
      b' = b /\ r.2 = sol /\
      forall p, p ∈ positions -> p ∉ dom (grid b) ->
        forall ps, valid_placement (placed t p b) todo ps ->
          is_solved fuel (with_placement (placed t p b) todo ps)
          = Ret (false, with_placement (placed t p b) todo ps, []).
Proof.
  intros Hrec. induction positions as [|p positions IH]; intros sol b r b' log Hrun.
  - simpl in Hrun. step_done Hrun. simpl.
    split; [apply not_elem_of_nil|]. repeat split. intros p Hp. by apply elem_of_nil in Hp.
  - simpl in Hrun. apply bind_Ret in Hrun as (b0 & b1 & l0 & l1 & Hget & Hrun & ->).
    step_done Hget. simpl.
    case_bool_decide as Hocc.
    + apply IH in Hrun as [Hlog Hpost]. split; [done|].
      destruct (r.1).
      * destruct Hpost as (q & ps & Hq & Hrest). exists q, ps. split; [by right|done].
      * destruct Hpost as (-> & -> & Hex). repeat split.
        intros q [->|Hq]%elem_of_cons Hfree; [done|by apply Hex].
    + apply bind_Ret in Hrun as (u & b1 & la & lb & Hadd & Hrun & ->).
      rewrite add_block_free in Hadd by by rewrite pos_new_block.
      rewrite pos_new_block in Hadd. injection Hadd as <- <- <-.
      apply bind_Ret in Hrun as ([found sol1] & b2 & lc & ld & Hr & Hrun & ->).
      apply Hrec in Hr as [Hpost Hlc]. simpl in Hrun.
      unfold search_post in Hpost. destruct found; simpl in Hpost.
      * step_done Hrun. simpl.
        split; [by rewrite app_nil_r|].
        destruct Hpost as (ps & Hvalid & -> & -> & Hsolved).
        exists p, ps. rewrite <- app_assoc. split; [by left|]. by repeat (split; [done|]).
      * destruct Hpost as (-> & -> & Hex).
        apply bind_Ret in Hrun as (u' & b3 & le & lf & Hdel & Hrun & ->).
        rewrite del_grid_present in Hdel
          by (simpl; rewrite dom_insert_L; apply elem_of_union_l; by apply elem_of_singleton).
        injection Hdel as <- <- <-. simpl in Hrun.
        apply bind_Ret in Hrun as (sol2 & b4 & lg & lh & Hpop & Hrun & ->).
        unfold solution_pop in Hpop. rewrite list_pop_snoc in Hpop.
        step_done Hpop.
        rewrite set_grid_set_grid in Hrun.
        pose proof (add_then_del (new_block t p) b) as Hback.
        rewrite pos_new_block in Hback. rewrite Hback in Hrun by done.
        apply IH in Hrun as [Hlog Hpost]. simpl.
        split; [by rewrite not_elem_of_app|].
        destruct (r.1).
        -- destruct Hpost as (q & ps & Hq & Hrest). exists q, ps. split; [by right|done].
        -- destruct Hpost as (-> & -> & Hex'). repeat split.
           intros q [->|Hq]%elem_of_cons Hfree; [by apply Hex|by apply Hex'].
Qed.

Lemma try_place_Ret todo :
  forall index, rec_ok fuel todo (try_place fuel todo index).
Proof.
  induction todo as [|t todo IH]; intros index sol b r b' log Hrun.
  - simpl in Hrun. apply bind_Ret in Hrun as (u & b1 & la & lb & Hemit & Hrun & ->).
    step_done Hemit.
    apply bind_Ret in Hrun as (solved & b2 & lc & ld & Hsolved & Hrun & ->).
    step_done Hrun.
    pose proof Hsolved as Hs. apply is_solved_Ret in Hs as (-> & -> & _).
    split.
    + unfold search_post. simpl. destruct solved.
      * exists []. rewrite with_placement_nil, app_nil_r. by rewrite valid_placement_nil.
      * repeat split. intros ps ->%valid_placement_nil. by rewrite with_placement_nil.
    + simpl. by intros [[=]|[]%elem_of_nil]%elem_of_cons.
  - simpl in Hrun. apply bind_Ret in Hrun as (u & b1 & la & lb & Hemit & Hrun & ->).
    step_done Hemit.
    apply bind_Ret in Hrun as (b0 & b2 & lc & ld & Hget & Hrun & ->).
    step_done Hget.
    apply (for_pos_Ret t todo _ (IH (S index))) in Hrun as [Hlog Hpost].
    split.
    + unfold search_post. destruct (r.1).
      * destruct Hpost as (p & ps & Hp & Hfree & Hvalid & -> & -> & Hsolved).
        exists (p :: ps). rewrite with_placement_cons.
        split; [by apply valid_placement_cons|]. by repeat (split; [done|]).
      * destruct Hpost as (-> & -> & Hex). repeat split.
        intros [|p ps] Hvalid.
        { destruct Hvalid as [Hlen _]. done. }
        apply valid_placement_cons in Hvalid as (Hp & Hfree & Hvalid).
        rewrite with_placement_cons. by apply Hex.
    + simpl. intros [[=]|Hin]%elem_of_cons. done.
Qed.

Lemma for_pos_Raise t todo rec :
  rec_ok fuel todo rec -> rec_raises_geometry rec ->
  forall positions sol b e,
    for_pos t rec positions sol b = Raise e -> geometry_error e.
Proof.
  intros Hrec Hraise. induction positions as [|p positions IH]; intros sol b e Hrun.
  - done.
  - simpl in Hrun. apply bind_Raise in Hrun as [Hget|(b0 & b1 & l0 & Hget & Hrun)];
      [done|].
    step_done Hget.
    case_bool_decide as Hocc; [by eapply IH|].
    apply bind_Raise in Hrun as [Hadd|(u & b1 & la & Hadd & Hrun)].
    { rewrite add_block_free in Hadd by by rewrite pos_new_block. done. }
    rewrite add_block_free in Hadd by by rewrite pos_new_block.
    rewrite pos_new_block in Hadd. injection Hadd as <- <- <-.
    apply bind_Raise in Hrun as [Hr|([found sol1] & b2 & lc & Hr & Hrun)];
      [by eapply Hraise|].
    apply Hrec in Hr as [Hpost _]. unfold search_post in Hpost.
    destruct found; simpl in Hpost, Hrun; [done|].
    destruct Hpost as (-> & -> & _).
    apply bind_Raise in Hrun as [Hdel|(u' & b3 & le & Hdel & Hrun)].
    { rewrite del_grid_present in Hdel; [done|].
      simpl. rewrite dom_insert_L. apply elem_of_union_l. by apply elem_of_singleton. }
    rewrite del_grid_present in Hdel
      by (simpl; rewrite dom_insert_L; apply elem_of_union_l; by apply elem_of_singleton).
    injection Hdel as <- <- <-.
    unfold solution_pop in Hrun. rewrite list_pop_snoc in Hrun.
    apply bind_Raise in Hrun as [Hpop|(sol2 & b4 & lg & Hpop & Hrun)]; [done|].
    by eapply IH.
Qed.

Lemma try_place_Raise todo :
  forall index, rec_raises_geometry (try_place fuel todo index).
Proof.
  induction todo as [|t todo IH]; intros index sol b e Hrun.
  - simpl in Hrun. apply bind_Raise in Hrun as [Hemit|(u & b1 & la & Hemit & Hrun)];
      [done|].
    step_done Hemit.
    apply bind_Raise in Hrun as [Hs|(s & b2 & lc & Hs & Hrun)]; [|done].
    by eapply is_solved_Raise.
  - simpl in Hrun. apply bind_Raise in Hrun as [Hemit|(u & b1 & la & Hemit & Hrun)];
      [done|].
    step_done Hemit.
    apply bind_Raise in Hrun as [Hget|(b0 & b2 & lc & Hget & Hrun)]; [done|].
    step_done Hget.
    eapply for_pos_Raise; [apply try_place_Ret|apply IH|exact Hrun].
Qed.

End Search.

(** ** The solver *)

Lemma solver_Ret fuel board res board' log :
  solver fuel board = Ret (res, board', log) ->
  search_post fuel (blocks_placable board) [] board
    (match res with Some solution => (true, solution) | None => (false, []) end) board'
  /\ (TimeRead ∉ log).
Proof.
  unfold solver. intros Hrun.
  apply bind_Ret in Hrun as (b0 & b1 & l0 & l1 & Hget & Hrun & ->).
  step_done Hget.
  apply bind_Ret in Hrun as ([found sol] & b2 & l2 & l3 & Hr & Hrun & ->).
  step_done Hrun.
  apply try_place_Ret in Hr as [Hpost Hlog]. rewrite app_nil_r. split; [|done].
  unfold search_post in *. destruct found; simpl in *; [done|].
  by destruct Hpost as (-> & -> & Hex).
Qed.

Lemma solver_Raise fuel board e :
  solver fuel board = Raise e -> geometry_error e.
Proof.
  unfold solver. intros Hrun.
  apply bind_Raise in Hrun as [Hget|(b0 & b1 & l0 & Hget & Hrun)]; [done|].
  step_done Hget.
  apply bind_Raise in Hrun as [Hr|(r & b2 & l2 & Hr & Hrun)]; [|done].
  by eapply try_place_Raise.
Qed.

(** ** What the search leaves on the board *)

Lemma pos_placed_at (todo : list BlockType) (ps : list Point) :
  length ps = length todo -> pos <$> placed_at todo ps = ps.
Proof.
  unfold placed_at. revert ps. induction todo as [|t todo IH]; intros [|p ps] Hlen;
    simpl in *; try done.
  rewrite pos_new_block, IH; [done|lia].
Qed.

Lemma place_blocks_lookup_other (blocks : list Block) (g : gmap Point Block) p :
  p ∉ pos <$> blocks -> place_blocks blocks g !! p = g !! p.
Proof.
  unfold place_blocks. revert g. induction blocks as [|block blocks IH]; intros g Hp;
    simpl; [done|].
  rewrite fmap_cons, not_elem_of_cons in Hp. destruct Hp as [Hne Hp].
  rewrite IH by done. by rewrite lookup_insert_ne.
Qed.

Lemma place_blocks_lookup_in (blocks : list Block) (g : gmap Point Block) block :
  NoDup (pos <$> blocks) -> block ∈ blocks ->
  place_blocks blocks g !! pos block = Some block.
Proof.
  revert g. induction blocks as [|b0 blocks IH]; intros g Hnd Hin.
  - by apply elem_of_nil in Hin.
  - rewrite fmap_cons, NoDup_cons in Hnd. destruct Hnd as [Hfresh Hnd].
    apply elem_of_cons in Hin as [->|Hin].
    + change (place_blocks blocks (<[pos b0 := b0]> g) !! pos b0 = Some b0).
      rewrite place_blocks_lookup_other by done. apply lookup_insert_eq.
    + change (place_blocks blocks (<[pos b0 := b0]> g) !! pos block = Some block).
      by apply IH.
Qed.

(** C6: when [solver] returns [None] the board is the one it was given;
    when it returns a list of blocks, the grid is the old grid with exactly
    these blocks added, each at its own position, on positions that were
    free and are pairwise distinct; nothing else of the board has changed. *)
Theorem solver_board_effect (fuel : nat) (board : Board) res board' log :
  solver fuel board = Ret (res, board', log) ->
  match res with
  | None => board' = board
  | Some solution =>
      board' = set_grid (place_blocks solution (grid board)) board /\
      NoDup (pos <$> solution) /\
      (forall block, block ∈ solution ->
         (pos block ∉ dom (grid board)) /\ grid board' !! pos block = Some block) /\
      (forall p, p ∉ pos <$> solution -> grid board' !! p = grid board !! p)
  end.
Proof.
  intros Hrun. apply solver_Ret in Hrun as [Hpost _]. unfold search_post in Hpost.
  destruct res as [solution|]; simpl in Hpost.
  - destruct Hpost as (ps & (Hlen & Hnd & Hall) & -> & -> & _).
    unfold with_placement. simpl.
    rewrite (pos_placed_at _ _ Hlen). split; [done|]. split; [done|]. split.
    + intros block Hin. split.
      * apply (Hall (pos block)). rewrite <- (pos_placed_at _ _ Hlen).
        by apply list_elem_of_fmap_2.
      * apply place_blocks_lookup_in; [by rewrite pos_placed_at|done].
    + intros p Hp. apply place_blocks_lookup_other. by rewrite pos_placed_at.
  - by destruct Hpost as (-> & _).
Qed.

Lemma solver_board_effect_witness :
  board_mirror_solved
  = set_grid (place_blocks [mkBlock ReflectBlock (mkPoint 2 2) false] (grid board_mirror))
             board_mirror.
Proof.
  apply (solver_board_effect 10 board_mirror
           (Some [mkBlock ReflectBlock (mkPoint 2 2) false]) board_mirror_solved
           [TryPlace 0; TryPlace 1; TryPlace 1]).
  vm_compute. reflexivity.
Defined.

(** The run that fails gives the board back. *)
Example solver_unsolvable_restores :
  solver 10 board_unsolvable
  = Ret (None, board_unsolvable, [TryPlace 0; TryPlace 1; TryPlace 1]).
Proof. vm_compute. reflexivity. Qed.

(** ** No block is placed on an occupied position *)

(** The error branch of [add_block] is there: *)
Example add_block_occupied_raises :
  add_block (mkBlock OpaqueBlock (mkPoint 2 2) false) board_mirror_solved
  = Raise (AlreadyOccupied (mkPoint 2 2)).
Proof. vm_compute. reflexivity. Qed.

(** C7: the search only calls [add_block] on free positions, so [solver]
    never raises the error of an occupied position (nor the errors of a
    missing key or of an empty [solution]); what it can raise is the
    geometry error of a laser's interaction. *)
Theorem solver_never_occupied (fuel : nat) (board : Board) (p : Point) :
  solver fuel board <> Raise (AlreadyOccupied p) /\
  solver fuel board <> Raise (KeyError p) /\
  solver fuel board <> Raise IndexError.
Proof.
  split; [|split]; intros Hrun; by apply solver_Raise in Hrun.
Qed.

(** ** Nothing to place *)

Lemma blocks_placable_zero (board : Board) :
  Forall (fun item => item.2 = 0) (available_blocks board) ->
  blocks_placable board = [].
Proof.
  unfold blocks_placable. induction 1 as [|item items Hitem _ IH]; [done|].
  simpl. by rewrite Hitem, IH.
Qed.

(** C10: when every count of [available_blocks] is zero, [solver] returns
    the empty list when the targets are among the illuminated points and
    [None] otherwise; the empty list is not [None], but it is false as a
    truth value, so the main block reports "No solution." in both cases. *)
Theorem solver_nothing_to_place (fuel : nat) (board : Board) (v : gset Point) :
  Forall (fun item => item.2 = 0) (available_blocks board) ->
  simulate_lasers fuel board = Ret (v, board, []) ->
  solver fuel board
  = Ret (if bool_decide (targets board ⊆ v) then Some [] else None,
         board, [TryPlace 0%nat]) /\
  Some (@nil Block) <> None /\
  truthy (Some []) = false /\
  main fuel board = Ret (NoSolution, board, [TimeRead; TryPlace 0%nat; TimeRead]).
Proof.
  intros Hzero Hsim.
  assert (solver fuel board
          = Ret (if bool_decide (targets board ⊆ v) then Some [] else None,
                 board, [TryPlace 0%nat])) as Hsolver.
  { unfold solver, bind at 1, get. rewrite (blocks_placable_zero _ Hzero). simpl.
    unfold bind at 1. unfold bind at 1, emit. unfold bind at 1.
    unfold is_solved, bind at 1. rewrite Hsim. unfold get, bind, ret. simpl.
    by destruct (bool_decide _). }
  split; [done|]. split; [done|]. split; [done|].
  unfold main, bind at 1, emit. unfold bind at 1. rewrite Hsolver.
  unfold bind, ret. simpl. by destruct (bool_decide _).
Qed.

Lemma solver_nothing_to_place_witness :
  solver 10 board_already_solved = Ret (Some [], board_already_solved, [TryPlace 0%nat]) /\
  main 10 board_already_solved
  = Ret (NoSolution, board_already_solved, [TimeRead; TryPlace 0%nat; TimeRead]).
Proof.
  destruct (solver_nothing_to_place 10 board_already_solved
              (list_to_set [mkPoint 2 1; mkPoint 2 2; mkPoint 2 3; mkPoint 2 4; mkPoint 2 5]))
    as (Hsolver & _ & _ & Hmain).
  - repeat constructor.
  - vm_compute. reflexivity.
  - split; [|exact Hmain]. rewrite Hsolver. vm_compute. reflexivity.
Defined.

(** ** The search and the clock *)

(** On the board that cannot be solved the search enters [try_place] three
    times and returns [None] after the last placement; it reads no clock,
    at the top of a call or elsewhere, so no deadline is checked. *)
Lemma solver_checks_no_deadline :
  solver 10 board_unsolvable
  = Ret (None, board_unsolvable, [TryPlace 0; TryPlace 1; TryPlace 1]) /\
  ~ deadline_checked [TryPlace 0; TryPlace 1; TryPlace 1].
Proof.
  split; [vm_compute; reflexivity|].
  intros Hchecked. specialize (Hchecked 0%nat 0%nat eq_refl). discriminate.
Qed.

(** C4, as the code has it: a call of [solver] that returns has read no
    clock, and its one failure result, [None], is returned exactly when
    every complete placement has been tried and none is solved. *)
Theorem solver_fails_only_by_exhaustion (fuel : nat) (board : Board) res board' log :
  solver fuel board = Ret (res, board', log) ->
  (TimeRead ∉ log) /\
  (res = None <->
   forall ps, valid_placement board (blocks_placable board) ps ->
     is_solved fuel (with_placement board (blocks_placable board) ps)
     = Ret (false, with_placement board (blocks_placable board) ps, [])).
Proof.
  intros Hrun. apply solver_Ret in Hrun as [Hpost Hlog]. split; [done|].
  unfold search_post in Hpost. destruct res as [solution|]; simpl in Hpost.
  - destruct Hpost as (ps & Hvalid & _ & -> & Hsolved). split; [done|].
    intros Hnone. specialize (Hnone ps Hvalid). rewrite Hsolved in Hnone. discriminate.
  - destruct Hpost as (_ & _ & Hnone). done.
Qed.

Lemma solver_fails_only_by_exhaustion_witness :
  (TimeRead ∉ [TryPlace 0; TryPlace 1; TryPlace 1]) /\
  forall ps, valid_placement board_unsolvable (blocks_placable board_unsolvable) ps ->
    is_solved 10 (with_placement board_unsolvable (blocks_placable board_unsolvable) ps)
    = Ret (false, with_placement board_unsolvable (blocks_placable board_unsolvable) ps, []).
Proof.
  destruct (solver_fails_only_by_exhaustion 10 board_unsolvable None board_unsolvable
              [TryPlace 0; TryPlace 1; TryPlace 1]) as [Hlog [Hnone _]].
  - vm_compute. reflexivity.
  - split; [exact Hlog|]. by apply Hnone.
Defined.

(** The main block does read the clock, before and after the search. *)
Example main_reads_clock_around_solver :
  main 10 board_unsolvable
  = Ret (NoSolution, board_unsolvable,
         [TimeRead; TryPlace 0; TryPlace 1; TryPlace 1; TimeRead]).
Proof. vm_compute. reflexivity. Qed.

(** ** Termination of the simulation *)

Section Termination.

Variable board : Board.

Lemma is_valid_position_spec (p : Point) :
  is_valid_position board p = true <->
  0 <= x p < width board /\ 0 <= y p < height board.
Proof.
  unfold is_valid_position. rewrite !andb_true_iff, !bool_decide_eq_true. lia.
Qed.

Lemma steps_left_decreases (d current : Point) :
  d <> mkPoint 0 0 ->
  is_valid_position board (Point_add current d) = true ->
  (steps_left board d (Point_add current d) < steps_left board d current)%nat.
Proof.
  intros Hd Hvalid. apply is_valid_position_spec in Hvalid.
  destruct d as [dx dy]. simpl in Hvalid.
  assert (dx <> 0 \/ dy <> 0) as Hmoves.
  { destruct (decide (dx = 0)) as [->|]; [|by left].
    destruct (decide (dy = 0)) as [->|]; [by destruct Hd|by right]. }
  unfold steps_left. simpl. repeat case_bool_decide; lia.
Qed.

Lemma steps_left_bound (d current : Point) :
  is_valid_position board current = true ->
  (steps_left board d current < walk_fuel board - 1)%nat.
Proof.
  intros Hvalid. apply is_valid_position_spec in Hvalid.
  unfold steps_left, walk_fuel. repeat case_bool_decide; lia.
Qed.

Lemma Res_bind_fuel {T U : Type} (r : Res T) (k : T -> U) :
  r <> OutOfFuel -> Res_bind r (fun a => Ret (k a)) <> OutOfFuel.
Proof. by destruct r. Qed.

Lemma interact_fuel (block : Block) (laser : Laser) : interact block laser <> OutOfFuel.
Proof.
  unfold interact, ReflectBlock_interact, OpaqueBlock_interact, RefractBlock_interact.
  destruct (class block); repeat destruct (_ && _); done.
Qed.

Lemma walk_from_steps_left (fuel : nat) (d current : Point) visited :
  d <> mkPoint 0 0 ->
  (steps_left board d current < fuel)%nat ->
  walk fuel board current d visited <> OutOfFuel.
Proof.
  intros Hd. revert current visited.
  induction fuel as [|fuel IH]; intros current visited Hfuel; [lia|].
  simpl. destruct (is_valid_position board _) eqn:Hvalid; simpl; [|done].
  destruct (grid board !! _) as [block|].
  - apply Res_bind_fuel, interact_fuel.
  - apply IH. pose proof (steps_left_decreases d current Hd Hvalid). lia.
Qed.

Lemma walk_terminates (fuel : nat) (d current : Point) visited :
  d <> mkPoint 0 0 ->
  (walk_fuel board <= fuel)%nat ->
  walk fuel board current d visited <> OutOfFuel.
Proof.
  intros Hd Hfuel. destruct fuel as [|fuel]; [unfold walk_fuel in Hfuel; lia|].
  simpl. destruct (is_valid_position board _) eqn:Hvalid; simpl; [|done].
  destruct (grid board !! _) as [block|].
  - apply Res_bind_fuel, interact_fuel.
  - apply walk_from_steps_left; [done|].
    pose proof (steps_left_bound d _ Hvalid). lia.
Qed.

Lemma flips_self (d : Point) : d ∈ flips d.
Proof. by left. Qed.

Lemma flips_moving (d d' : Point) :
  d <> mkPoint 0 0 -> d' ∈ flips d -> d' <> mkPoint 0 0.
Proof.
  destruct d as [dx dy]. unfold flips. simpl. intros Hd Hin.
  repeat (apply elem_of_cons in Hin as [->|Hin]); try (by apply elem_of_nil in Hin);
    intros [= Hx Hy]; apply Hd; f_equal; lia.
Qed.

Lemma flips_flips (d0 d d' : Point) :
  d ∈ flips d0 -> d' ∈ flips d -> d' ∈ flips d0.
Proof.
  destruct d0 as [dx dy]. unfold flips. simpl. intros Hin Hin'.
  repeat (apply elem_of_cons in Hin as [->|Hin]); try (by apply elem_of_nil in Hin);
    simpl in Hin'; rewrite ?Z.opp_involutive in Hin';
    repeat (apply elem_of_cons in Hin' as [->|Hin']); try (by apply elem_of_nil in Hin');
    rewrite !elem_of_cons; auto 6.
Qed.

Lemma interact_Ret (block : Block) (prev d : Point) out :
  interact block (mkLaser prev d) = Ret out ->
  (length out <= 2)%nat /\
  Forall (fun l => origin l = pos block /\ direction l ∈ flips d) out.
Proof.
  destruct d as [dx dy].
  unfold interact, ReflectBlock_interact, OpaqueBlock_interact, RefractBlock_interact, flips.
  simpl. destruct (class block); repeat destruct (_ && _); intros [= <-]; simpl;
    (split; [lia|]); repeat constructor; simpl; rewrite !elem_of_cons; auto 6.
Qed.

Lemma walk_Ret_emitted (fuel : nat) current d visited visited' out :
  walk fuel board current d visited = Ret (visited', out) ->
  (length out <= 2)%nat /\ Forall (emitted_by board d) out.
Proof.
  revert current visited. induction fuel as [|fuel IH]; intros current visited; [done|].
  simpl. destruct (negb _).
  { intros [= <- <-]. split; [simpl; lia|constructor]. }
  destruct (grid board !! _) as [block|] eqn:Hblock; [|apply IH].
  destruct (interact block _) as [out'| |] eqn:Hint; simpl; try done.
  intros [= <- <-]. apply interact_Ret in Hint as [Hlen Hall]. split; [done|].
  eapply Forall_impl; [exact Hall|]. intros l [Ho Hd]. split; [|done]. eauto.
Qed.

Lemma elem_of_laser_universe (o d : Point) :
  (o, d) ∈ laser_universe board <->
  o ∈ laser_origins board /\ d ∈ laser_directions board.
Proof. unfold laser_universe. by rewrite elem_of_gset_cprod. Qed.

Lemma elem_of_laser_directions (d : Point) :
  d ∈ laser_directions board <->
  exists l, l ∈ lasers board /\ d ∈ flips (direction l).
Proof.
  unfold laser_directions. rewrite elem_of_list_to_set, list_elem_of_In, in_flat_map.
  split.
  - intros (d0 & Hd0 & Hd). apply list_elem_of_In, list_elem_of_fmap in Hd0 as (l & -> & Hl).
    exists l. split; [done|by apply list_elem_of_In].
  - intros (l & Hl & Hd). exists (direction l). split; [|by apply list_elem_of_In].
    apply list_elem_of_In. by apply list_elem_of_fmap_2.
Qed.

Lemma source_in_universe (l : Laser) :
  l ∈ lasers board -> (origin l, direction l) ∈ laser_universe board.
Proof.
  intros Hl. apply elem_of_laser_universe. split.
  - unfold laser_origins. apply elem_of_union_l, elem_of_list_to_set.
    by apply list_elem_of_fmap_2.
  - apply elem_of_laser_directions. exists l. split; [done|apply flips_self].
Qed.

Lemma emitted_in_universe (o d : Point) (l : Laser) :
  (o, d) ∈ laser_universe board -> emitted_by board d l ->
  (origin l, direction l) ∈ laser_universe board.
Proof.
  intros [_ Hd]%elem_of_laser_universe [(p & block & Hblock & Ho) Hflip].
  apply elem_of_laser_universe. split.
  - unfold laser_origins. apply elem_of_union_r, elem_of_list_to_set.
    rewrite Ho. apply list_elem_of_fmap_2.
    apply (list_elem_of_fmap_2 snd _ (p, block)). by apply elem_of_map_to_list.
  - apply elem_of_laser_directions in Hd as (l0 & Hl0 & Hd).
    apply elem_of_laser_directions. exists l0. split; [done|]. by eapply flips_flips.
Qed.

Lemma size_difference_insert (U seen : gset (Point * Point)) (i : Point * Point) :
  i ∈ U -> i ∉ seen ->
  (size (U ∖ ({[i]} ∪ seen)) < size (U ∖ seen))%nat.
Proof.
  intros HU Hseen. apply subset_size. split.
  - intros j [Hj Hn]%elem_of_difference. apply elem_of_difference. split; [done|].
    intros Hs. apply Hn. by apply elem_of_union_r.
  - intros Hsub. specialize (Hsub i). rewrite !elem_of_difference in Hsub.
    destruct Hsub as [_ Hn]; [done|]. apply Hn, elem_of_union_l. by apply elem_of_singleton.
Qed.

Lemma simulate_loop_terminates :
  forall fuel visited seen active,
    loop_inv board seen active ->
    (3 * size (laser_universe board ∖ seen) + length active + walk_fuel board <= fuel)%nat ->
    simulate_loop fuel board visited seen active <> OutOfFuel.
Proof.
  induction fuel as [|fuel IH]; intros visited seen active [Hseen Hactive] Hfuel.
  { unfold walk_fuel in Hfuel. lia. }
  simpl. destruct (list_pop active) as [[laser rest]|] eqn:Hpop; [|done].
  apply list_pop_Some in Hpop as ->. rewrite length_app in Hfuel. simpl in Hfuel.
  apply Forall_app in Hactive as [Hrest Hlaser].
  apply Forall_singleton in Hlaser as [HU Hmoving].
  case_bool_decide as Hin.
  - apply IH; [done|lia].
  - destruct (walk fuel board _ _ visited) as [[visited' out]| |] eqn:Hwalk; [|done|].
    + apply walk_Ret_emitted in Hwalk as [Hlen Hout].
      pose proof (size_difference_insert _ _ _ HU Hin).
      apply IH.
      * split; [apply union_subseteq; split; [by apply singleton_subseteq_l|done]|].
        apply Forall_app. split; [done|].
        eapply Forall_impl; [exact Hout|]. intros l Hl. split.
        -- by eapply emitted_in_universe.
        -- destruct Hl as [_ Hflip]. by eapply flips_moving.
      * rewrite length_app. lia.
    + exfalso. eapply walk_terminates; [exact Hmoving| |exact Hwalk]. lia.
Qed.

End Termination.

(** C3, as the code has it: on a board whose sources all have a direction
    other than (0,0), [simulate_lasers] ends, whatever cycles the blocks
    form: with [simulate_fuel board] steps or more it returns the set of
    points, or raises the error of a laser's interaction, and the board is
    untouched. The bound counts three steps for each identifier
    [(origin, direction)] that can be expanded, each expanded once. *)
Theorem simulate_lasers_terminates (board : Board) (fuel : nat) :
  (forall l, l ∈ lasers board -> direction l <> mkPoint 0 0) ->
  (simulate_fuel board <= fuel)%nat ->
  (exists v, simulate_lasers fuel board = Ret (v, board, [])) \/
  (exists e, simulate_lasers fuel board = Raise e /\ geometry_error e).
Proof.
  intros Hmoving Hfuel.
  assert (simulate_loop fuel board ∅ ∅ (lasers board) <> OutOfFuel) as Hrun.
  { apply simulate_loop_terminates.
    - split; [apply empty_subseteq|]. apply Forall_forall. intros l Hl.
      split; [by apply source_in_universe|by apply Hmoving].
    - rewrite difference_empty_L. exact Hfuel. }
  unfold simulate_lasers, bind, get, lift.
  destruct (simulate_loop fuel board ∅ ∅ (lasers board)) as [v|e|] eqn:Hloop; [| |done].
  - left. by exists v.
  - right. exists e. split; [done|]. by eapply simulate_loop_Raise.
Qed.

(** A laser of direction (0,0) inside the board and off the blocks never
    leaves its point: the inner loop runs forever. *)
Lemma still_walk (fuel : nat) visited :
  walk fuel board_still (mkPoint 1 1) (mkPoint 0 0) visited = OutOfFuel.
Proof.
  revert visited. induction fuel as [|fuel IH]; intros visited; [done|].
  simpl. change (Point_add (mkPoint 1 1) (mkPoint 0 0)) with (mkPoint 1 1).
  change (is_valid_position board_still (mkPoint 1 1)) with true. simpl.
  rewrite lookup_empty. apply IH.
Qed.

Lemma simulate_still_never_returns :
  ~ exists fuel, simulate_lasers fuel board_still <> OutOfFuel.
Proof.
  intros [fuel Hrun]. apply Hrun. unfold simulate_lasers, bind, get, lift.
  destruct fuel as [|fuel]; [done|]. simpl.
  change (list_pop [mkLaser (mkPoint 1 1) (mkPoint 0 0)])
    with (Some (mkLaser (mkPoint 1 1) (mkPoint 0 0), @nil Laser)).
  simpl. rewrite bool_decide_eq_false_2 by apply not_elem_of_empty.
  by rewrite still_walk.
Qed.

(** The board of the run that never returns is one [add_laser] builds. *)
Example add_laser_still :
  add_laser 1 1 0 0 (set_lasers [] board_still) = Ret (tt, board_still, []).
Proof. vm_compute. reflexivity. Qed.

Lemma simulate_lasers_terminates_witness :
  (exists v, simulate_lasers (simulate_fuel board_refractors) board_refractors
             = Ret (v, board_refractors, [])) \/
  (exists e, simulate_lasers (simulate_fuel board_refractors) board_refractors = Raise e /\
             geometry_error e).
Proof.
  apply simulate_lasers_terminates.
  - intros l Hl. apply list_elem_of_singleton in Hl as ->. simpl. discriminate.
  - apply le_n.
Defined.

(** The cycle of the two refract blocks: the run returns the whole row. *)
Example simulate_refractors :
  simulate_lasers 20 board_refractors
  = Ret (list_to_set [mkPoint 0 2; mkPoint 1 2; mkPoint 2 2; mkPoint 3 2;
                      mkPoint 4 2; mkPoint 5 2; mkPoint 6 2; mkPoint 7 2],
         board_refractors, []).
Proof. vm_compute. reflexivity. Qed.

(** ** The set of illuminated points *)

Lemma reaches_valid board d start previous current :
  reaches board d start previous current -> is_valid_position board current = true.
Proof. induction 1; done. Qed.

(** The three cases of one step of a walk. *)
Lemma walk_step_outside fuel board current d visited :
  is_valid_position board (Point_add current d) = false ->
  walk (S fuel) board current d visited = Ret (visited, []).
Proof. intros H. simpl. by rewrite H. Qed.

Lemma walk_step_block fuel board current d visited block :
  is_valid_position board (Point_add current d) = true ->
  grid board !! Point_add current d = Some block ->
  walk (S fuel) board current d visited
  = Res_bind (interact block (mkLaser current d))
             (fun new_lasers => Ret ({[Point_add current d]} ∪ visited, new_lasers)).
Proof. intros Hv Hb. simpl. by rewrite Hv, Hb. Qed.

Lemma walk_step_free fuel board current d visited :
  is_valid_position board (Point_add current d) = true ->
  grid board !! Point_add current d = None ->
  walk (S fuel) board current d visited
  = walk fuel board (Point_add current d) d ({[Point_add current d]} ∪ visited).
Proof. intros Hv Hb. simpl. by rewrite Hv, Hb. Qed.

Lemma simulate_loop_step fuel board visited seen active laser rest visited' new :
  list_pop active = Some (laser, rest) ->
  (origin laser, direction laser) ∉ seen ->
  walk fuel board (origin laser) (direction laser) visited = Ret (visited', new) ->
  simulate_loop (S fuel) board visited seen active
  = simulate_loop fuel board visited' ({[(origin laser, direction laser)]} ∪ seen)
                  (rest ++ new).
Proof.
  intros Hpop Hseen Hwalk. simpl. rewrite Hpop.
  rewrite bool_decide_eq_false_2 by done. by rewrite Hwalk.
Qed.

(** A walk that returns has visited every point its laser touches, and
    what it hands back is what the block it ran into gave. *)
Lemma walk_complete fuel board start d visited visited' out :
  walk fuel board start d visited = Ret (visited', out) ->
  visited ⊆ visited' /\
  forall previous current, reaches board d start previous current ->
    current ∈ visited' /\
    forall block, grid board !! current = Some block ->
      interact block (mkLaser previous d) = Ret out.
Proof.
  revert start visited. induction fuel as [|fuel IH]; intros start visited Hwalk; [done|].
  simpl in Hwalk. destruct (is_valid_position board (Point_add start d)) eqn:Hvalid;
    simpl in Hwalk.
  - destruct (grid board !! Point_add start d) as [block|] eqn:Hblock.
    + destruct (interact block _) as [out'| |] eqn:Hint; simpl in Hwalk; try done.
      injection Hwalk as <- <-. split; [apply union_subseteq_r|].
      intros previous current Hreach. inversion Hreach; subst; [|congruence].
      split; [apply elem_of_union_l; by apply elem_of_singleton|].
      intros block' Hblock'. congruence.
    + apply IH in Hwalk as [Hsub Hall]. split.
      * intros p Hp. apply Hsub. by apply elem_of_union_r.
      * intros previous current Hreach. inversion Hreach; subst; [|by apply Hall].
        split; [apply Hsub, elem_of_union_l; by apply elem_of_singleton|].
        intros block Hblock'. congruence.
  - injection Hwalk as <- <-. split; [done|].
    intros previous current Hreach. inversion Hreach; subst; congruence.
Qed.

(** Every point a walk adds is touched, and the lasers it hands back come
    from a block its laser ran into. *)
Lemma walk_sound fuel board start d visited visited' out :
  walk fuel board start d visited = Ret (visited', out) ->
  (forall p, p ∈ visited' -> p ∈ visited \/ exists previous, reaches board d start previous p) /\
  (forall l', l' ∈ out -> exists previous current block,
      reaches board d start previous current /\ grid board !! current = Some block /\
      interact block (mkLaser previous d) = Ret out).
Proof.
  revert start visited. induction fuel as [|fuel IH]; intros start visited Hwalk; [done|].
  simpl in Hwalk. destruct (is_valid_position board (Point_add start d)) eqn:Hvalid;
    simpl in Hwalk.
  - destruct (grid board !! Point_add start d) as [block|] eqn:Hblock.
    + destruct (interact block _) as [out'| |] eqn:Hint; simpl in Hwalk; try done.
      injection Hwalk as <- <-. split.
      * intros p [->%elem_of_singleton|Hp]%elem_of_union; [right|by left].
        exists start. by constructor.
      * intros l' Hl'. exists start, (Point_add start d), block.
        split; [by constructor|done].
    + apply IH in Hwalk as [Hpts Hout]. split.
      * intros p Hp. destruct (Hpts p Hp) as [[->%elem_of_singleton|Hv]%elem_of_union|[previous Hreach]].
        -- right. exists start. by constructor.
        -- by left.
        -- right. exists previous. by apply reaches_later.
      * intros l' Hl'. destruct (Hout l' Hl') as (previous & current & block & Hreach & Hrest).
        exists previous, current, block. split; [by apply reaches_later|done].
  - injection Hwalk as <- <-. split; [by left|]. intros l' Hl'. by apply elem_of_nil in Hl'.
Qed.

Lemma list_pop_None {T : Type} (l : list T) : list_pop l = None -> l = [].
Proof.
  unfold list_pop. destruct (reverse l) eqn:Hrev; [|done].
  intros _. rewrite <- (reverse_involutive l), Hrev. done.
Qed.

Lemma loop_sound board :
  forall fuel visited seen active V,
    simulate_loop fuel board visited seen active = Ret V ->
    (forall p, p ∈ visited -> touched board p) ->
    (forall l, l ∈ active -> beam board l) ->
    forall p, p ∈ V -> touched board p.
Proof.
  induction fuel as [|fuel IH]; intros visited seen active V Hrun Hvisited Hactive; [done|].
  simpl in Hrun. destruct (list_pop active) as [[laser rest]|] eqn:Hpop.
  - apply list_pop_Some in Hpop as ->.
    assert (beam board laser) as Hlaser.
    { apply Hactive, elem_of_app. right. by apply list_elem_of_singleton. }
    assert (forall l, l ∈ rest -> beam board l) as Hrest.
    { intros l Hl. apply Hactive, elem_of_app. by left. }
    case_bool_decide as Hseen; [by eapply IH|].
    destruct (walk fuel board _ _ visited) as [[visited' out]| |] eqn:Hwalk; try done.
    apply walk_sound in Hwalk as [Hpts Hout].
    eapply IH; [exact Hrun| |].
    + intros p Hp. destruct (Hpts p Hp) as [Hv|[previous Hreach]]; [by apply Hvisited|].
      by exists laser, previous.
    + intros l [Hl|Hl]%elem_of_app; [by apply Hrest|].
      destruct (Hout l Hl) as (previous & current & block & Hreach & Hblock & Hint).
      by eapply beam_emitted.
  - injection Hrun as <-. exact Hvisited.
Qed.

Lemma expanded_mono board visited visited' seen seen' active active' id :
  expanded board visited seen active id ->
  visited ⊆ visited' ->
  (forall l, l ∈ active -> l ∈ active' \/ (origin l, direction l) ∈ seen') ->
  seen ⊆ seen' ->
  expanded board visited' seen' active' id.
Proof.
  intros Hexp Hsub Hact Hseen previous current Hreach.
  destruct (Hexp previous current Hreach) as [Hcur Hout]. split; [by apply Hsub|].
  intros block out l' Hblock Hint Hl'.
  destruct (Hout block out l' Hblock Hint Hl') as [Hin|Hin]; [by apply Hact|].
  right. by apply Hseen.
Qed.

Lemma loop_complete board :
  forall fuel visited seen active V,
    simulate_loop fuel board visited seen active = Ret V ->
    (forall id, id ∈ seen -> expanded board visited seen active id) ->
    visited ⊆ V /\
    exists seen', seen ⊆ seen' /\
      (forall l, l ∈ active -> (origin l, direction l) ∈ seen') /\
      (forall id, id ∈ seen' -> expanded board V seen' [] id).
Proof.
  induction fuel as [|fuel IH]; intros visited seen active V Hrun Hexp; [done|].
  simpl in Hrun. destruct (list_pop active) as [[laser rest]|] eqn:Hpop.
  - apply list_pop_Some in Hpop as ->.
    case_bool_decide as Hseen.
    + apply IH in Hrun as (Hsub & seen' & Hseen' & Hrest & Hclosed).
      * split; [done|]. exists seen'. split; [done|]. split; [|done].
        intros l [Hl| ->%list_elem_of_singleton]%elem_of_app; [by apply Hrest|].
        by apply Hseen'.
      * intros id Hid. eapply expanded_mono; [by apply Hexp|done| |done].
        intros l [Hl| ->%list_elem_of_singleton]%elem_of_app; [by left|by right].
    + destruct (walk fuel board _ _ visited) as [[visited' out]| |] eqn:Hwalk; try done.
      apply walk_complete in Hwalk as [Hgrow Hwalk].
      apply IH in Hrun as (Hsub & seen' & Hseen' & Hrest & Hclosed).
      * split; [by etrans|]. exists seen'. split.
        { intros id Hid. apply Hseen'. by apply elem_of_union_r. }
        split; [|done].
        intros l [Hl| ->%list_elem_of_singleton]%elem_of_app.
        -- apply Hrest, elem_of_app. by left.
        -- apply Hseen', elem_of_union_l. by apply elem_of_singleton.
      * intros id [->%elem_of_singleton|Hid]%elem_of_union.
        -- intros previous current Hreach. simpl in Hreach.
           destruct (Hwalk previous current Hreach) as [Hcur Hblock].
           split; [done|]. intros block out' l' Hb Hint Hl'. simpl in Hint.
           rewrite (Hblock block Hb) in Hint. injection Hint as <-.
           left. apply elem_of_app. by right.
        -- eapply expanded_mono; [by apply Hexp|done| |apply union_subseteq_r].
           intros l [Hl| ->%list_elem_of_singleton]%elem_of_app.
           ++ left. apply elem_of_app. by left.
           ++ right. apply elem_of_union_l. by apply elem_of_singleton.
  - injection Hrun as <-. apply list_pop_None in Hpop as ->.
    split; [done|]. exists seen. split; [done|]. split; [|done].
    intros l Hl. by apply elem_of_nil in Hl.
Qed.

Lemma simulate_loop_touched board fuel V :
  simulate_loop fuel board ∅ ∅ (lasers board) = Ret V ->
  forall p, p ∈ V <-> touched board p.
Proof.
  intros Hrun p. split.
  - eapply loop_sound; [exact Hrun| |].
    + intros q Hq. by apply not_elem_of_empty in Hq.
    + intros l Hl. by constructor.
  - apply loop_complete in Hrun as (_ & seen & _ & Hsources & Hclosed).
    2: { intros id Hid. by apply not_elem_of_empty in Hid. }
    assert (forall l, beam board l -> (origin l, direction l) ∈ seen) as Hbeam.
    { induction 1 as [l Hl|l previous current block out l' _ IH Hreach Hblock Hint Hl'].
      - by apply Hsources.
      - destruct (Hclosed _ IH previous current Hreach) as [_ Hout].
        destruct (Hout block out l' Hblock Hint Hl') as [Hnil|Hin]; [|done].
        by apply elem_of_nil in Hnil. }
    intros (l & previous & Hl & Hreach).
    by destruct (Hclosed _ (Hbeam l Hl) previous p Hreach) as [Hp _].
Qed.

(** C2: a step of a walk to a point outside the board ends the walk and
    records nothing; a step to a point inside records it, block or not; on
    a block, [interact] gets the laser with the point before the step as its
    origin, the walk stops, and the outer loop appends what came back to the
    work-list. So the set [simulate_lasers] returns is exactly the set of
    the points the lasers of the board touch, all of them inside the board,
    the points of the blocks they ran into among them. *)
Theorem simulate_lasers_illuminates (board : Board) :
  (forall fuel current d visited,
     is_valid_position board (Point_add current d) = false ->
     walk (S fuel) board current d visited = Ret (visited, [])) /\
  (forall fuel current d visited block,
     is_valid_position board (Point_add current d) = true ->
     grid board !! Point_add current d = Some block ->
     walk (S fuel) board current d visited
     = Res_bind (interact block (mkLaser current d))
                (fun new_lasers => Ret ({[Point_add current d]} ∪ visited, new_lasers))) /\
  (forall fuel current d visited,
     is_valid_position board (Point_add current d) = true ->
     grid board !! Point_add current d = None ->
     walk (S fuel) board current d visited
     = walk fuel board (Point_add current d) d ({[Point_add current d]} ∪ visited)) /\
  (forall fuel visited seen active laser rest visited' new_lasers,
     list_pop active = Some (laser, rest) ->
     (origin laser, direction laser) ∉ seen ->
     walk fuel board (origin laser) (direction laser) visited
     = Ret (visited', new_lasers) ->
     simulate_loop (S fuel) board visited seen active
     = simulate_loop fuel board visited'
         ({[(origin laser, direction laser)]} ∪ seen) (rest ++ new_lasers)) /\
  (forall fuel V board' log,
     simulate_lasers fuel board = Ret (V, board', log) ->
     forall p, (p ∈ V <-> touched board p) /\
               (p ∈ V -> is_valid_position board p = true)).
Proof.
  split; [intros; by apply walk_step_outside|].
  split; [intros; by apply walk_step_block|].
  split; [intros; by apply walk_step_free|].
  split; [intros; by eapply simulate_loop_step|].
  intros fuel V board' log Hrun p.
  apply simulate_lasers_Ret in Hrun as (Hrun & _ & _).
  pose proof (simulate_loop_touched board fuel V Hrun p) as Htouched.
  split; [done|]. intros Hp. apply Htouched in Hp as (l & previous & _ & Hreach).
  by eapply reaches_valid.
Qed.

(** On the board of the two refract blocks, the point (2,2) of the left
    block is touched by a laser. *)
Lemma simulate_lasers_illuminates_witness : touched board_refractors (mkPoint 2 2).
Proof.
  destruct (simulate_lasers_illuminates board_refractors) as (_ & _ & _ & _ & Hrun).
  apply (Hrun 20%nat
           (list_to_set [mkPoint 0 2; mkPoint 1 2; mkPoint 2 2; mkPoint 3 2;
                         mkPoint 4 2; mkPoint 5 2; mkPoint 6 2; mkPoint 7 2])
           board_refractors []).
  - vm_compute. reflexivity.
  - apply elem_of_list_to_set, list_elem_of_In. simpl. auto.
Defined.

(** * Further properties of the code *)

(** ** Blocks and targets on the board *)

(** X1: [add_block] followed by [del board.grid[pos]] of the same position
    gives the board back when the position was free, and raises the error
    of [add_block] when it was not (nothing is deleted then). *)
Theorem add_block_then_del (block : Block) (board : Board) :
  (add_block block ;;; del_grid (pos block)) board
  = if bool_decide (pos block ∈ dom (grid board))
    then Raise (AlreadyOccupied (pos block))
    else Ret (tt, board, []).
Proof.
  unfold bind at 1. case_bool_decide as Hocc.
  - by rewrite add_block_occupied.
  - rewrite add_block_free by done.
    rewrite del_grid_present
      by (simpl; rewrite dom_insert_L; apply elem_of_union_l; by apply elem_of_singleton).
    simpl. rewrite set_grid_set_grid. by rewrite add_then_del.
Qed.

(** X2: [del board.grid[pos]] on a position that holds a block, followed by
    [add_block] of that block, gives the board back when the block is stored
    under its own position; on a position without a block the deletion
    raises [KeyError]. *)
Theorem del_then_add_block (p : Point) (block : Block) (board : Board) :
  (grid board !! p = Some block -> pos block = p ->
   (del_grid p ;;; add_block block) board = Ret (tt, board, [])) /\
  (grid board !! p = None ->
   (del_grid p ;;; add_block block) board = Raise (KeyError p)).
Proof.
  split.
  - intros Hblock Hpos. unfold bind at 1.
    rewrite del_grid_present by (apply elem_of_dom; eauto).
    rewrite add_block_free.
    + simpl. rewrite set_grid_set_grid, Hpos, insert_delete_eq, insert_id by done.
      by rewrite set_grid_id.
    + simpl. rewrite Hpos, dom_delete_L. intros [_ Hn]%elem_of_difference.
      apply Hn. by apply elem_of_singleton.
  - intros Hnone. unfold bind at 1, del_grid, bind, get.
    rewrite bool_decide_eq_false_2; [done|]. by apply not_elem_of_dom.
Qed.

Lemma del_then_add_block_witness :
  (del_grid (mkPoint 2 4) ;;; add_block (mkBlock ReflectBlock (mkPoint 2 4) true))
    board_column_mirror
  = Ret (tt, board_column_mirror, []).
Proof.
  apply (del_then_add_block (mkPoint 2 4) (mkBlock ReflectBlock (mkPoint 2 4) true)
           board_column_mirror).
  - reflexivity.
  - reflexivity.
Defined.

(** X3: the targets are a set: adding a target a second time changes nothing,
    and the order in which two targets are added does not matter. *)
Theorem add_target_set (x1 y1 x2 y2 : Z) (board : Board) :
  (add_target x1 y1 ;;; add_target x1 y1) board = add_target x1 y1 board /\
  (add_target x1 y1 ;;; add_target x2 y2) board
  = (add_target x2 y2 ;;; add_target x1 y1) board.
Proof.
  unfold add_target, bind, get, put, set_targets. simpl. split.
  - do 3 f_equal. by rewrite (assoc_L (∪)), union_idemp_L.
  - do 3 f_equal. rewrite !(assoc_L (∪)).
    by rewrite (comm_L (∪) {[mkPoint x2 y2]} {[mkPoint x1 y1]}).
Qed.

(** ** A laser that steps onto a block *)

Lemma interact_step (block : Block) (previous d : Point) :
  pos block = Point_add previous d ->
  interact block (mkLaser previous d) =
    match class block with
    | OpaqueBlock => Ret []
    | ReflectBlock =>
        if axis_aligned d then Ret [mkLaser (pos block) (reversed d)]
        else Raise UnexpectedEntry
    | RefractBlock =>
        if axis_aligned d
        then Ret [mkLaser (pos block) d; mkLaser (pos block) (reversed d)]
        else Raise (UnexpectedPosition previous (pos block))
    end.
Proof.
  intros Hpos. destruct d as [dx dy], previous as [px py].
  unfold interact, ReflectBlock_interact, OpaqueBlock_interact, RefractBlock_interact,
    axis_aligned, reversed.
  rewrite Hpos. simpl.
  destruct (class block); [|done|];
    repeat case_bool_decide; simpl; try lia; repeat f_equal; lia.
Qed.

(** X4: in the simulation a block is entered by one step of the laser: the
    laser handed to [interact] has the point before the block as origin. A
    reflect block then sends a laser that runs along an axis straight back,
    and raises for every other direction (a diagonal one, or (0,0)); a
    refract block lets the axis-aligned laser through and sends a second
    one straight back, and raises otherwise; an opaque block gives nothing
    back. *)
Theorem interact_entered_by_step (block : Block) (previous d : Point) :
  pos block = Point_add previous d ->
  interact block (mkLaser previous d) =
    match class block with
    | OpaqueBlock => Ret []
    | ReflectBlock =>
        if axis_aligned d then Ret [mkLaser (pos block) (reversed d)]
        else Raise UnexpectedEntry
    | RefractBlock =>
        if axis_aligned d
        then Ret [mkLaser (pos block) d; mkLaser (pos block) (reversed d)]
        else Raise (UnexpectedPosition previous (pos block))
    end.
Proof. apply interact_step. Qed.

Lemma interact_entered_by_step_witness :
  interact (mkBlock ReflectBlock (mkPoint 2 2) false)
           (mkLaser (mkPoint 1 1) (mkPoint 1 1))
  = Raise UnexpectedEntry.
Proof.
  apply (interact_entered_by_step (mkBlock ReflectBlock (mkPoint 2 2) false)
           (mkPoint 1 1) (mkPoint 1 1)).
  reflexivity.
Defined.

(** ** Reading a board file *)

Lemma bind_quiet {T U : Type} (m : M T) (k : T -> M U) b a b1 :
  m b = Ret (a, b1, []) -> bind m k b = k a b1.
Proof. intros Hm. unfold bind. rewrite Hm. by destruct (k a b1) as [[[c b2] log]| |]. Qed.

Lemma place_cell_run (x y : Z) (cell : string) (b : Board) :
  mkPoint (x * 2) (y * 2) ∉ dom (grid b) ->
  place_cell x y cell b = Ret (tt, read_cell b (mkPoint (x * 2) (y * 2), cell), []).
Proof.
  intros Hfree. unfold place_cell, read_cell, block_of_cell. simpl.
  case_bool_decide; [done|].
  repeat case_bool_decide; try done; by rewrite add_block_free.
Qed.

Lemma read_cell_dom (b : Board) (pc : Point * string) (p : Point) :
  p ∈ dom (grid (read_cell b pc)) -> p ∈ dom (grid b) \/ p = pc.1.
Proof.
  unfold read_cell. case_bool_decide; [by left|].
  destruct (block_of_cell _ _); [|by left]. simpl. rewrite dom_insert_L.
  intros [->%elem_of_singleton|Hp]%elem_of_union; [by right|by left].
Qed.

Lemma read_cells_dom (cells : list (Point * string)) (b : Board) (p : Point) :
  p ∈ dom (grid (read_cells cells b)) -> p ∈ dom (grid b) \/ p ∈ cells.*1.
Proof.
  unfold read_cells. revert b. induction cells as [|pc cells IH]; intros b Hp; simpl in *;
    [by left|].
  apply IH in Hp as [Hp|Hp]; [|right; by right].
  apply read_cell_dom in Hp as [Hp| ->]; [by left|right; by left].
Qed.

Lemma fresh_cells_cons pc cells b :
  fresh_cells (pc :: cells) b ->
  (pc.1 ∉ dom (grid b)) /\ fresh_cells cells (read_cell b pc).
Proof.
  intros [Hnd Hfree]. rewrite fmap_cons, NoDup_cons in Hnd. destruct Hnd as [Hnotin Hnd].
  split; [apply Hfree; by left|]. split; [done|].
  intros p Hp [Hd| ->]%read_cell_dom; [|done]. revert Hd. apply Hfree. by right.
Qed.

Lemma fresh_cells_app cells1 cells2 b :
  fresh_cells (cells1 ++ cells2) b ->
  fresh_cells cells1 b /\ fresh_cells cells2 (read_cells cells1 b).
Proof.
  intros [Hnd Hfree]. rewrite fmap_app in Hnd, Hfree.
  apply NoDup_app in Hnd as (Hnd1 & Hdisj & Hnd2). split.
  - split; [done|]. intros p Hp. apply Hfree, elem_of_app. by left.
  - split; [done|]. intros p Hp [Hd|Hd]%read_cells_dom.
    + revert Hd. apply Hfree, elem_of_app. by right.
    + by apply (Hdisj p).
Qed.

Lemma for_cells_run (y x : Z) (row : list string) (b : Board) :
  fresh_cells (row_cells y x row) b ->
  for_cells y x row b = Ret (tt, read_cells (row_cells y x row) b, []).
Proof.
  revert x b. induction row as [|cell row IH]; intros x b Hfresh; [done|].
  simpl in *. apply fresh_cells_cons in Hfresh as [Hfree Hfresh].
  rewrite (bind_quiet _ _ _ _ _ (place_cell_run x y cell b Hfree)). by apply IH.
Qed.

Lemma for_rows_run (y : Z) (grid : list (list string)) (b : Board) :
  fresh_cells (grid_cells y grid) b ->
  for_rows y grid b = Ret (tt, read_cells (grid_cells y grid) b, []).
Proof.
  revert y b. induction grid as [|row grid IH]; intros y b Hfresh; [done|].
  simpl in *. apply fresh_cells_app in Hfresh as [Hrow Hfresh].
  rewrite (bind_quiet _ _ _ _ _ (for_cells_run y 0 row b Hrow)).
  unfold read_cells at 2. rewrite foldl_app. by apply IH.
Qed.

(** The points of the cells. *)
Lemma row_cells_points (y x : Z) (row : list string) (p : Point) :
  p ∈ (row_cells y x row).*1 ->
  exists i, (i < length row)%nat /\ p = mkPoint ((x + Z.of_nat i) * 2) (y * 2).
Proof.
  revert x. induction row as [|cell row IH]; intros x Hp; simpl in *.
  - by apply elem_of_nil in Hp.
  - apply elem_of_cons in Hp as [->|Hp].
    + exists 0%nat. split; [lia|]. f_equal. lia.
    + apply IH in Hp as (i & Hi & ->). exists (S i). split; [lia|]. f_equal. lia.
Qed.

Lemma grid_cells_points (y : Z) (grid : list (list string)) (p : Point) :
  p ∈ (grid_cells y grid).*1 ->
  exists i j, (j < length grid)%nat /\
    p = mkPoint (Z.of_nat i * 2) ((y + Z.of_nat j) * 2).
Proof.
  revert y. induction grid as [|row grid IH]; intros y Hp; simpl in *.
  - by apply elem_of_nil in Hp.
  - rewrite fmap_app in Hp. apply elem_of_app in Hp as [Hp|Hp].
    + apply row_cells_points in Hp as (i & Hi & ->). exists i, 0%nat.
      split; [lia|]. f_equal; lia.
    + apply IH in Hp as (i & j & Hj & ->). exists i, (S j). split; [lia|]. f_equal; lia.
Qed.

Lemma row_cells_NoDup (y x : Z) (row : list string) : NoDup (row_cells y x row).*1.
Proof.
  revert x. induction row as [|cell row IH]; intros x; simpl; [constructor|].
  apply NoDup_cons. split; [|apply IH].
  intros (i & _ & [= Hx])%row_cells_points. lia.
Qed.

Lemma grid_cells_NoDup (y : Z) (grid : list (list string)) : NoDup (grid_cells y grid).*1.
Proof.
  revert y. induction grid as [|row grid IH]; intros y; simpl; [constructor|].
  rewrite fmap_app. apply NoDup_app. split; [apply row_cells_NoDup|]. split; [|apply IH].
  intros p (i & _ & ->)%row_cells_points (i' & j & _ & [= _ Hy])%grid_cells_points. lia.
Qed.

Lemma grid_cells_fresh (grid : list (list string)) (w h : Z) :
  fresh_cells (grid_cells 0 grid) (Board_init w h).
Proof.
  split; [apply grid_cells_NoDup|]. intros p _. simpl. rewrite dom_empty_L.
  apply not_elem_of_empty.
Qed.

Lemma for_lasers_run (entries : list (Z * Z * Z * Z)) (b : Board) :
  for_lasers entries b
  = Ret (tt, set_lasers (lasers b ++ (laser_of_entry <$> entries)) b, []).
Proof.
  revert b. induction entries as [|[[[x0 y0] dx] dy] entries IH]; intros b.
  - simpl. rewrite app_nil_r. by destruct b.
  - simpl. erewrite bind_quiet.
    2: { unfold add_laser, bind, get, put. simpl. rewrite !normalise_sgn. reflexivity. }
    rewrite IH. simpl. by rewrite <- app_assoc.
Qed.

Lemma for_targets_run (entries : list (Z * Z)) (b : Board) :
  for_targets entries b
  = Ret (tt, set_targets (list_to_set (target_of_entry <$> entries) ∪ targets b) b, []).
Proof.
  revert b. induction entries as [|[x0 y0] entries IH]; intros b.
  - simpl. rewrite (left_id_L ∅ (∪)). by destruct b.
  - simpl. erewrite bind_quiet; [|reflexivity].
    rewrite IH. simpl. unfold set_targets. simpl. do 3 f_equal.
    unfold target_of_entry at 2. simpl.
    rewrite (comm_L (∪) {[mkPoint x0 y0]} (list_to_set _)).
    by rewrite (assoc_L (∪)).
Qed.

Lemma parse_bff_board_run row0 rest blocks entries marks :
  parse_bff_board (row0 :: rest) blocks entries marks
  = Ret (row0 :: rest, parsed_board (row0 :: rest) row0 blocks entries marks).
Proof.
  unfold parse_bff_board.
  rewrite bool_decide_eq_true_2 by (simpl; lia).
  erewrite bind_quiet; [|apply for_rows_run, grid_cells_fresh].
  erewrite bind_quiet; [|reflexivity].
  erewrite bind_quiet; [|apply for_lasers_run].
  rewrite for_targets_run. reflexivity.
Qed.

(** ** The board that is read *)

Lemma block_of_cell_o (p : Point) : block_of_cell p "o" = None.
Proof. reflexivity. Qed.

Lemma block_of_cell_Some (p : Point) (cell : string) (block : Block) :
  block_of_cell p cell = Some block ->
  pos block = p /\ fixed block = true /\ cell <> "o" /\ cell <> "x".
Proof.
  unfold block_of_cell. repeat case_bool_decide; subst; intros [= <-]; done.
Qed.

Lemma read_cell_grid (b : Board) (pc : Point * string) :
  grid (read_cell b pc)
  = match block_of_cell pc.1 pc.2 with
    | Some block => <[pc.1 := block]> (grid b)
    | None => grid b
    end.
Proof.
  unfold read_cell. case_bool_decide as Ho; [by rewrite Ho|].
  by destruct (block_of_cell _ _).
Qed.

Lemma read_cell_empty_positions (b : Board) (pc : Point * string) :
  empty_positions (read_cell b pc)
  = empty_positions b ++ (if bool_decide (pc.2 = "o") then [pc.1] else []).
Proof.
  unfold read_cell. case_bool_decide; [done|].
  destruct (block_of_cell _ _); simpl; by rewrite app_nil_r.
Qed.

Lemma read_cells_lookup_other (cells : list (Point * string)) (b : Board) (p : Point) :
  p ∉ cells.*1 -> grid (read_cells cells b) !! p = grid b !! p.
Proof.
  unfold read_cells. revert b. induction cells as [|pc cells IH]; intros b Hp; [done|].
  rewrite fmap_cons, not_elem_of_cons in Hp. destruct Hp as [Hne Hp].
  simpl. rewrite IH by done. rewrite read_cell_grid.
  destruct (block_of_cell _ _); [by rewrite lookup_insert_ne|done].
Qed.

Lemma read_cells_lookup (cells : list (Point * string)) (b : Board) p cell :
  NoDup cells.*1 -> (p, cell) ∈ cells ->
  grid (read_cells cells b) !! p
  = match block_of_cell p cell with
    | Some block => Some block
    | None => grid b !! p
    end.
Proof.
  unfold read_cells. revert b. induction cells as [|pc cells IH]; intros b Hnd Hin.
  - by apply elem_of_nil in Hin.
  - rewrite fmap_cons, NoDup_cons in Hnd. destruct Hnd as [Hfresh Hnd].
    apply elem_of_cons in Hin as [<-|Hin]; simpl.
    + change (foldl read_cell (read_cell b (p, cell)) cells)
        with (read_cells cells (read_cell b (p, cell))).
      rewrite read_cells_lookup_other by done. rewrite read_cell_grid. simpl.
      destruct (block_of_cell p cell); [by rewrite lookup_insert_eq|done].
    + rewrite IH by done. destruct (block_of_cell p cell); [done|].
      rewrite read_cell_grid. destruct pc as [q c]. simpl in *.
      destruct (block_of_cell q c); [|done].
      rewrite lookup_insert_ne; [done|]. intros ->. apply Hfresh.
      by apply (list_elem_of_fmap_2 fst _ (p, cell)).
Qed.

Lemma read_cells_empty_positions (cells : list (Point * string)) (b : Board) :
  empty_positions (read_cells cells b)
  = empty_positions b ++ (filter (fun pc => pc.2 = "o") cells).*1.
Proof.
  unfold read_cells. revert b. induction cells as [|pc cells IH]; intros b; simpl.
  - by rewrite app_nil_r.
  - rewrite IH, read_cell_empty_positions, <- app_assoc. f_equal.
    rewrite filter_cons. by case_bool_decide; case_decide.
Qed.

Lemma row_cells_elem (y x : Z) (row : list string) p cell :
  (p, cell) ∈ row_cells y x row <->
  exists i, row !! i = Some cell /\ p = mkPoint ((x + Z.of_nat i) * 2) (y * 2).
Proof.
  revert x. induction row as [|c row IH]; intros x; simpl.
  - split; [by intros ?%elem_of_nil|by intros (i & Hi & _)].
  - rewrite elem_of_cons, IH. split.
    + intros [[= -> ->]|(i & Hi & ->)].
      * exists 0%nat. split; [done|]. f_equal. lia.
      * exists (S i). split; [done|]. f_equal. lia.
    + intros ([|i] & Hi & ->); simpl in Hi.
      * left. injection Hi as ->. do 2 f_equal. lia.
      * right. exists i. split; [done|]. f_equal. lia.
Qed.

Lemma grid_cells_elem (y : Z) (rows : list (list string)) p cell :
  (p, cell) ∈ grid_cells y rows <->
  exists i j, cell_at rows i j = Some cell /\
    p = mkPoint (Z.of_nat i * 2) ((y + Z.of_nat j) * 2).
Proof.
  revert y. induction rows as [|row rows IH]; intros y; simpl.
  - split; [by intros ?%elem_of_nil|by intros (i & j & Hc & _)].
  - rewrite elem_of_app, row_cells_elem, IH. split.
    + intros [(i & Hi & ->)|(i & j & Hc & ->)].
      * exists i, 0%nat. split; [done|]. f_equal; lia.
      * exists i, (S j). split; [done|]. f_equal; lia.
    + intros (i & [|j] & Hc & ->).
      * left. exists i. split; [done|]. f_equal; lia.
      * right. exists i, j. split; [done|]. f_equal; lia.
Qed.

Lemma cells_functional (cells : list (Point * string)) p c1 c2 :
  NoDup cells.*1 -> (p, c1) ∈ cells -> (p, c2) ∈ cells -> c1 = c2.
Proof.
  induction cells as [|[q c] cells IH]; intros Hnd H1 H2; [by apply elem_of_nil in H1|].
  rewrite fmap_cons, NoDup_cons in Hnd. destruct Hnd as [Hfresh Hnd]. simpl in Hfresh.
  apply elem_of_cons in H1 as [Heq1|H1]; apply elem_of_cons in H2 as [Heq2|H2];
    simplify_eq.
  - done.
  - destruct Hfresh. by apply (list_elem_of_fmap_2 fst _ (q, c2)).
  - destruct Hfresh. by apply (list_elem_of_fmap_2 fst _ (q, c1)).
  - by apply IH.
Qed.

Lemma empty_cells_NoDup (cells : list (Point * string)) :
  NoDup cells.*1 -> NoDup (filter (fun pc => pc.2 = "o") cells).*1.
Proof.
  induction cells as [|pc cells IH]; [done|].
  rewrite fmap_cons, NoDup_cons. intros [Hfresh Hnd]. rewrite filter_cons.
  case_decide; [|by apply IH]. rewrite fmap_cons, NoDup_cons. split; [|by apply IH].
  intros Hin. apply Hfresh.
  apply list_elem_of_fmap in Hin as (pc' & -> & [_ Hin]%list_elem_of_filter).
  by apply list_elem_of_fmap_2.
Qed.

Lemma parsed_board_lookup rows row0 blocks entries marks p cell :
  (p, cell) ∈ grid_cells 0 rows ->
  grid (parsed_board rows row0 blocks entries marks) !! p = block_of_cell p cell.
Proof.
  intros Hin. unfold parsed_board. simpl.
  rewrite (read_cells_lookup _ _ p cell) by (apply grid_cells_NoDup || done).
  simpl. rewrite lookup_empty. by destruct (block_of_cell p cell).
Qed.

Lemma parsed_board_lookup_other rows row0 blocks entries marks p :
  p ∉ (grid_cells 0 rows).*1 ->
  grid (parsed_board rows row0 blocks entries marks) !! p = None.
Proof.
  intros Hp. unfold parsed_board. simpl. by rewrite read_cells_lookup_other.
Qed.

Lemma parsed_board_empty_positions rows row0 blocks entries marks :
  empty_positions (parsed_board rows row0 blocks entries marks)
  = (filter (fun pc => pc.2 = "o") (grid_cells 0 rows)).*1.
Proof. unfold parsed_board. simpl. by rewrite read_cells_empty_positions. Qed.

Lemma parsed_board_empty_elem rows row0 blocks entries marks p :
  p ∈ empty_positions (parsed_board rows row0 blocks entries marks) <->
  (p, "o") ∈ grid_cells 0 rows.
Proof.
  rewrite parsed_board_empty_positions, list_elem_of_fmap. split.
  - intros ([q cell] & -> & [Ho Hin]%list_elem_of_filter). simpl in *. by subst.
  - intros Hin. exists (p, "o"). split; [done|]. by apply list_elem_of_filter.
Qed.

Lemma parse_bff_board_Ret rows blocks entries marks rows' board :
  parse_bff_board rows blocks entries marks = Ret (rows', board) ->
  rows' = rows /\ exists row0 rest, rows = row0 :: rest /\
    board = parsed_board rows row0 blocks entries marks.
Proof.
  destruct rows as [|row0 rest]; [done|].
  rewrite parse_bff_board_run. intros [= <- <-]. eauto.
Qed.

Lemma read_cells_same (cells : list (Point * string)) (b : Board) :
  width (read_cells cells b) = width b /\
  height (read_cells cells b) = height b /\
  lasers (read_cells cells b) = lasers b /\
  targets (read_cells cells b) = targets b.
Proof.
  unfold read_cells. revert b. induction cells as [|pc cells IH]; intros b; [done|].
  simpl. destruct (IH (read_cell b pc)) as (-> & -> & -> & ->).
  unfold read_cell. case_bool_decide; [done|]. by destruct (block_of_cell _ _).
Qed.

Lemma parsed_board_fields rows row0 blocks entries marks :
  let board := parsed_board rows row0 blocks entries marks in
  width board = Z.of_nat (length row0) * 2 /\
  height board = Z.of_nat (length rows) * 2 /\
  lasers board = laser_of_entry <$> entries /\
  targets board = list_to_set (target_of_entry <$> marks) /\
  available_blocks board = blocks.
Proof.
  unfold parsed_board. cbn [width height lasers targets available_blocks].
  destruct (read_cells_same (grid_cells 0 rows)
              (Board_init (Z.of_nat (length row0) * 2) (Z.of_nat (length rows) * 2)))
    as (-> & -> & -> & ->).
  cbn [width height lasers targets Board_init].
  split; [done|]. split; [done|]. split; [done|]. split; [|done].
  by rewrite (right_id_L ∅ (∪)).
Qed.

Lemma parsed_board_points rows row0 blocks entries marks p :
  let board := parsed_board rows row0 blocks entries marks in
  p ∈ dom (grid board) \/ p ∈ empty_positions board ->
  exists i j cell, p = cell_point i j /\ cell_at rows i j = Some cell.
Proof.
  intros board [Hp|Hp].
  - destruct (decide (p ∈ (grid_cells 0 rows).*1)) as [Hin|Hout].
    + apply list_elem_of_fmap in Hin as ([q cell] & -> & Hin). simpl.
      apply grid_cells_elem in Hin as (i & j & Hcell & ->).
      exists i, j, cell. split; [|done]. unfold cell_point. f_equal.
    + apply elem_of_dom in Hp as [block Hblock]. unfold board in Hblock.
      by rewrite parsed_board_lookup_other in Hblock.
  - apply parsed_board_empty_elem, grid_cells_elem in Hp as (i & j & Hcell & ->).
    exists i, j, "o". split; [|done]. unfold cell_point. f_equal.
Qed.

(** X5: the board construction of [parse_bff] raises [IndexError] on a
    grid without rows (the [width] it would then set to 0 is never
    computed), and on any other grid it returns the grid with a board: no
    cell makes [add_block] raise. The board is twice as wide as the first
    row is long and twice as high as the grid has rows; its lasers are the
    entries in order with the signs of their directions, its targets the
    set of the entries, and its block counts the ones given. *)
Theorem parse_bff_board_returns (rows : list (list string))
    (blocks : list (BlockType * Z)) (entries : list (Z * Z * Z * Z))
    (marks : list (Z * Z)) :
  match rows with
  | [] => parse_bff_board rows blocks entries marks = Raise IndexError
  | row0 :: _ =>
      exists board, parse_bff_board rows blocks entries marks = Ret (rows, board) /\
        width board = Z.of_nat (length row0) * 2 /\
        height board = Z.of_nat (length rows) * 2 /\
        lasers board = laser_of_entry <$> entries /\
        targets board = list_to_set (target_of_entry <$> marks) /\
        available_blocks board = blocks
  end.
Proof.
  destruct rows as [|row0 rest]; [done|].
  eexists. split; [apply parse_bff_board_run|]. apply parsed_board_fields.
Qed.

(** X6: what the board holds, cell by cell: the cell at column [i] of row
    [j] is read to the point [(2i, 2j)]; there the grid holds a fixed
    reflect, opaque or refract block when the cell is A, B or C and nothing
    otherwise, and the point is one of [empty_positions] exactly when the
    cell is o. Nothing is put anywhere else. *)
Theorem parse_bff_board_cells (rows : list (list string))
    (blocks : list (BlockType * Z)) (entries : list (Z * Z * Z * Z))
    (marks : list (Z * Z)) rows' board :
  parse_bff_board rows blocks entries marks = Ret (rows', board) ->
  (forall i j cell, cell_at rows i j = Some cell ->
     grid board !! cell_point i j = block_of_cell (cell_point i j) cell /\
     (cell_point i j ∈ empty_positions board <-> cell = "o")) /\
  (forall p, p ∈ dom (grid board) \/ p ∈ empty_positions board ->
     exists i j cell, p = cell_point i j /\ cell_at rows i j = Some cell).
Proof.
  intros (-> & row0 & rest & Hrows & ->)%parse_bff_board_Ret. split.
  - intros i j cell Hcell.
    assert ((cell_point i j, cell) ∈ grid_cells 0 rows) as Hin.
    { apply grid_cells_elem. exists i, j. split; [done|]. unfold cell_point. f_equal. }
    split; [by apply parsed_board_lookup|].
    rewrite parsed_board_empty_elem. split.
    + intros Ho. symmetry.
      by apply (cells_functional (grid_cells 0 rows) (cell_point i j));
        [apply grid_cells_NoDup| |].
    + by intros ->.
  - apply parsed_board_points.
Qed.

Lemma parse_bff_board_cells_witness :
  grid (parsed_board [["o"; "A"]; ["x"; "o"]] ["o"; "A"] [(A, 1); (B, 0); (C, 0)] [] [])
    !! cell_point 1 0
  = block_of_cell (cell_point 1 0) "A" /\
  (cell_point 1 0
   ∈ empty_positions
       (parsed_board [["o"; "A"]; ["x"; "o"]] ["o"; "A"] [(A, 1); (B, 0); (C, 0)] [] [])
   <-> "A" = "o").
Proof.
  destruct (parse_bff_board_cells [["o"; "A"]; ["x"; "o"]] [(A, 1); (B, 0); (C, 0)] [] []
              [["o"; "A"]; ["x"; "o"]]
              (parsed_board [["o"; "A"]; ["x"; "o"]] ["o"; "A"] [(A, 1); (B, 0); (C, 0)] [] []))
    as [Hcells _].
  - apply parse_bff_board_run.
  - apply (Hcells 1%nat 0%nat "A"). reflexivity.
Defined.

(** X7: the board that is read is well formed: every block is stored
    under its own position and is fixed, blocks and empty positions are on
    points with two even coordinates, the empty positions are pairwise
    distinct and hold no block; and when no row is longer than the first
    one, all of them are inside the board. *)
Theorem parse_bff_board_well_formed (rows : list (list string))
    (blocks : list (BlockType * Z)) (entries : list (Z * Z * Z * Z))
    (marks : list (Z * Z)) rows' board :
  parse_bff_board rows blocks entries marks = Ret (rows', board) ->
  keys_are_positions board /\
  (forall p block, grid board !! p = Some block -> fixed block = true) /\
  even_keys (grid board) /\
  NoDup (empty_positions board) /\
  (forall p, p ∈ empty_positions board ->
     even_point p = true /\ (p ∉ dom (grid board))) /\
  ((forall row, row ∈ rows -> (length row <= length (rows !!! 0%nat))%nat) ->
   forall p, p ∈ dom (grid board) \/ p ∈ empty_positions board ->
     is_valid_position board p = true).
Proof.
  intros Hrun. pose proof Hrun as Hrun'.
  apply parse_bff_board_Ret in Hrun' as (-> & row0 & rest & Hrows & ->).
  assert (forall p block,
            grid (parsed_board rows row0 blocks entries marks) !! p = Some block ->
            exists cell, (p, cell) ∈ grid_cells 0 rows /\
                         block_of_cell p cell = Some block) as Hblocks.
  { intros p block Hblock.
    destruct (decide (p ∈ (grid_cells 0 rows).*1)) as [Hin|Hout].
    - apply list_elem_of_fmap in Hin as ([q cell] & Heq & Hin). simpl in Heq. subst p.
      exists cell. split; [done|].
      by rewrite (parsed_board_lookup _ _ _ _ _ _ _ Hin) in Hblock.
    - by rewrite parsed_board_lookup_other in Hblock. }
  assert (forall p cell, (p, cell) ∈ grid_cells 0 rows -> even_point p = true) as Heven.
  { intros p cell (i & j & _ & ->)%grid_cells_elem. unfold even_point. simpl.
    by rewrite !Z.even_mul, !orb_true_r. }
  split; [|split; [|split; [|split; [|split]]]].
  - intros p block (cell & _ & Hcell)%Hblocks. by apply block_of_cell_Some in Hcell as [? _].
  - intros p block (cell & _ & Hcell)%Hblocks.
    by apply block_of_cell_Some in Hcell as (_ & ? & _).
  - intros p [block (cell & Hin & _)%Hblocks]%elem_of_dom. by eapply Heven.
  - rewrite parsed_board_empty_positions.
    apply empty_cells_NoDup, grid_cells_NoDup.
  - intros p Hp%parsed_board_empty_elem. split; [by eapply Heven|].
    intros [block Hblock]%elem_of_dom.
    rewrite (parsed_board_lookup _ _ _ _ _ _ _ Hp) in Hblock. done.
  - intros Hrect p Hp.
    destruct (parsed_board_points _ _ _ _ _ _ Hp) as (i & j & cell & -> & Hcell).
    unfold cell_at in Hcell. destruct (rows !! j) as [row|] eqn:Hrow; [|done].
    apply lookup_lt_Some in Hcell. pose proof (lookup_lt_Some _ _ _ Hrow) as Hj.
    assert (length row <= length row0)%nat as Hlen.
    { specialize (Hrect row). rewrite Hrows in Hrect. simpl in Hrect.
      apply Hrect. rewrite <- Hrows. by eapply list_elem_of_lookup_2. }
    apply is_valid_position_spec.
    destruct (parsed_board_fields rows row0 blocks entries marks) as (Hw & Hh & _).
    rewrite Hw, Hh. unfold cell_point. simpl. lia.
Qed.

Lemma parse_bff_board_well_formed_witness :
  NoDup (empty_positions
           (parsed_board [["o"; "A"]; ["x"; "o"]] ["o"; "A"] [(A, 1); (B, 0); (C, 0)]
              [(1, 0, 1, 1)] [(3, 2)])).
Proof.
  destruct (parse_bff_board_well_formed [["o"; "A"]; ["x"; "o"]] [(A, 1); (B, 0); (C, 0)]
              [(1, 0, 1, 1)] [(3, 2)] [["o"; "A"]; ["x"; "o"]]
              (parsed_board [["o"; "A"]; ["x"; "o"]] ["o"; "A"] [(A, 1); (B, 0); (C, 0)]
                 [(1, 0, 1, 1)] [(3, 2)]))
    as (_ & _ & _ & Hnd & _).
  - apply parse_bff_board_run.
  - exact Hnd.
Defined.

(** ** Errors of the interaction end the simulation *)

Lemma reaches_step board d start previous current :
  reaches board d start previous current -> current = Point_add previous d.
Proof. induction 1; done. Qed.

Lemma walk_safe fuel board start d visited visited' out :
  walk fuel board start d visited = Ret (visited', out) -> safe board (start, d).
Proof.
  intros Hwalk previous current block Hreach Hblock.
  apply walk_complete in Hwalk as [_ Hall].
  destruct (Hall previous current Hreach) as [_ Hout]. exists out. by apply Hout.
Qed.

Lemma loop_safe board :
  forall fuel visited seen active V,
    simulate_loop fuel board visited seen active = Ret V ->
    (forall id, id ∈ seen -> expanded board visited seen active id /\ safe board id) ->
    exists seen', seen ⊆ seen' /\
      (forall l, l ∈ active -> (origin l, direction l) ∈ seen') /\
      (forall id, id ∈ seen' -> expanded board V seen' [] id /\ safe board id).
Proof.
  induction fuel as [|fuel IH]; intros visited seen active V Hrun Hinv; [done|].
  simpl in Hrun. destruct (list_pop active) as [[laser rest]|] eqn:Hpop.
  - apply list_pop_Some in Hpop as ->.
    case_bool_decide as Hseen.
    + apply IH in Hrun as (seen' & Hseen' & Hrest & Hclosed).
      * exists seen'. split; [done|]. split; [|done].
        intros l [Hl| ->%list_elem_of_singleton]%elem_of_app; [by apply Hrest|].
        by apply Hseen'.
      * intros id Hid. split; [|by apply Hinv].
        eapply expanded_mono; [by apply Hinv|done| |done].
        intros l [Hl| ->%list_elem_of_singleton]%elem_of_app; [by left|by right].
    + destruct (walk fuel board _ _ visited) as [[visited' out]| |] eqn:Hwalk; try done.
      pose proof (walk_safe _ _ _ _ _ _ _ Hwalk) as Hsafe.
      apply walk_complete in Hwalk as [Hgrow Hwalk].
      apply IH in Hrun as (seen' & Hseen' & Hrest & Hclosed).
      * exists seen'. split.
        { intros id Hid. apply Hseen'. by apply elem_of_union_r. }
        split; [|done].
        intros l [Hl| ->%list_elem_of_singleton]%elem_of_app.
        -- apply Hrest, elem_of_app. by left.
        -- apply Hseen', elem_of_union_l. by apply elem_of_singleton.
      * intros id [->%elem_of_singleton|Hid]%elem_of_union.
        -- split; [|done]. intros previous current Hreach. simpl in Hreach.
           destruct (Hwalk previous current Hreach) as [Hcur Hblock].
           split; [done|]. intros block out' l' Hb Hint Hl'. simpl in Hint.
           rewrite (Hblock block Hb) in Hint. injection Hint as <-.
           left. apply elem_of_app. by right.
        -- split; [|by apply Hinv].
           eapply expanded_mono; [by apply Hinv|done| |apply union_subseteq_r].
           intros l [Hl| ->%list_elem_of_singleton]%elem_of_app.
           ++ left. apply elem_of_app. by left.
           ++ right. apply elem_of_union_l. by apply elem_of_singleton.
  - injection Hrun as <-. apply list_pop_None in Hpop as ->.
    exists seen. split; [done|]. split; [|done].
    intros l Hl. by apply elem_of_nil in Hl.
Qed.

(** When the simulation returns, no laser of the board has met a block
    whose [interact] raises. *)
Lemma simulate_loop_safe board fuel V :
  simulate_loop fuel board ∅ ∅ (lasers board) = Ret V ->
  forall l, beam board l -> safe board (origin l, direction l).
Proof.
  intros Hrun. apply loop_safe in Hrun as (seen & _ & Hsources & Hclosed).
  2: { intros id Hid. by apply not_elem_of_empty in Hid. }
  assert (forall l, beam board l -> (origin l, direction l) ∈ seen) as Hbeam.
  { induction 1 as [l Hl|l previous current block out l' _ IH Hreach Hblock Hint Hl'].
    - by apply Hsources.
    - destruct (Hclosed _ IH) as [Hexp _].
      destruct (Hexp previous current Hreach) as [_ Hout].
      destruct (Hout block out l' Hblock Hint Hl') as [Hnil|Hin]; [|done].
      by apply elem_of_nil in Hnil. }
  intros l Hl. by apply Hclosed, Hbeam.
Qed.

Lemma simulate_loop_not_Ret board l previous block e :
  beam board l -> runs_into board l previous block ->
  interact block (mkLaser previous (direction l)) = Raise e ->
  forall fuel V, simulate_loop fuel board ∅ ∅ (lasers board) <> Ret V.
Proof.
  intros Hbeam (current & Hreach & Hblock) Hint fuel V Hrun.
  destruct (simulate_loop_safe board fuel V Hrun l Hbeam previous current block Hreach Hblock)
    as [out Hout].
  simpl in Hout. congruence.
Qed.

Lemma simulate_loop_moving board fuel :
  (forall l, l ∈ lasers board -> direction l <> mkPoint 0 0) ->
  (simulate_fuel board <= fuel)%nat ->
  simulate_loop fuel board ∅ ∅ (lasers board) <> OutOfFuel.
Proof.
  intros Hmoving Hfuel. apply simulate_loop_terminates.
  - split; [apply empty_subseteq|]. apply Forall_forall. intros l Hl.
    split; [by apply source_in_universe|by apply Hmoving].
  - rewrite difference_empty_L. exact Hfuel.
Qed.

Lemma simulate_lasers_Raise_of_loop board fuel e :
  simulate_loop fuel board ∅ ∅ (lasers board) = Raise e ->
  simulate_lasers fuel board = Raise e.
Proof. unfold simulate_lasers, bind, get, lift. by intros ->. Qed.

Lemma bad_entry_raises board l previous block e fuel :
  beam board l -> runs_into board l previous block ->
  interact block (mkLaser previous (direction l)) = Raise e ->
  (forall l0, l0 ∈ lasers board -> direction l0 <> mkPoint 0 0) ->
  (simulate_fuel board <= fuel)%nat ->
  exists e', simulate_lasers fuel board = Raise e' /\ geometry_error e'.
Proof.
  intros Hbeam Hruns Hint Hmoving Hfuel.
  pose proof (simulate_loop_moving board fuel Hmoving Hfuel) as Hends.
  pose proof (simulate_loop_not_Ret board l previous block e Hbeam Hruns Hint fuel) as Hnot.
  destruct (simulate_loop fuel board ∅ ∅ (lasers board)) as [V|e'|] eqn:Hloop.
  - by destruct (Hnot V).
  - exists e'. split; [by apply simulate_lasers_Raise_of_loop|].
    by eapply simulate_loop_Raise.
  - done.
Qed.

(** X8: if some laser of the board, a source or one that a block gave back,
    steps onto a block whose [interact] raises for it, [simulate_lasers]
    never returns a set of points, whatever the order in which it takes the
    lasers; when all sources move it ends by raising. *)
Theorem simulate_lasers_bad_entry board l previous block e :
  beam board l -> runs_into board l previous block ->
  interact block (mkLaser previous (direction l)) = Raise e ->
  (forall fuel r, simulate_lasers fuel board <> Ret r) /\
  ((forall l0, l0 ∈ lasers board -> direction l0 <> mkPoint 0 0) ->
   forall fuel, (simulate_fuel board <= fuel)%nat ->
     exists e', simulate_lasers fuel board = Raise e' /\ geometry_error e').
Proof.
  intros Hbeam Hruns Hint. split.
  - intros fuel [[V b] log] Hrun. apply simulate_lasers_Ret in Hrun as (Hrun & _ & _).
    by eapply simulate_loop_not_Ret.
  - intros Hmoving fuel Hfuel. by eapply bad_entry_raises.
Qed.

Lemma simulate_lasers_bad_entry_witness :
  exists e', simulate_lasers (simulate_fuel board_diagonal_mirror) board_diagonal_mirror
             = Raise e' /\ geometry_error e'.
Proof.
  destruct (simulate_lasers_bad_entry board_diagonal_mirror
              (mkLaser (mkPoint 0 0) (mkPoint 1 1)) (mkPoint 1 1)
              (mkBlock ReflectBlock (mkPoint 2 2) true) UnexpectedEntry) as [_ Hraises].
  - apply beam_source. by apply list_elem_of_singleton.
  - exists (mkPoint 2 2). split; [|reflexivity].
    apply reaches_later; [reflexivity|reflexivity|]. apply reaches_first. reflexivity.
  - reflexivity.
  - apply Hraises.
    + intros l0 Hl0. apply list_elem_of_singleton in Hl0 as ->. simpl. discriminate.
    + apply le_n.
Defined.



(** ** Lasers that run along an axis *)

Lemma axis_aligned_moving (d : Point) : axis_aligned d = true -> d <> mkPoint 0 0.
Proof. intros Haxis ->. done. Qed.

Lemma axis_aligned_reversed (d : Point) : axis_aligned (reversed d) = axis_aligned d.
Proof.
  destruct d as [dx dy]. unfold axis_aligned, reversed. simpl.
  repeat case_bool_decide; try reflexivity; lia.
Qed.

(** What a block gives back to an axis-aligned laser that steps onto it. *)
Lemma interact_step_axis (block : Block) (previous d : Point) :
  pos block = Point_add previous d -> axis_aligned d = true ->
  exists out, interact block (mkLaser previous d) = Ret out /\
    Forall (fun l => origin l = pos block /\
                     (direction l = d \/ direction l = reversed d)) out.
Proof.
  intros Hpos Haxis. rewrite interact_step, Haxis by done.
  destruct (class block); eexists; (split; [reflexivity|]);
    repeat first [apply Forall_nil_2 | apply Forall_cons_2; [simpl; auto|]].
Qed.

Lemma walk_axis (board : Board) (d : Point) :
  keys_are_positions board -> axis_aligned d = true ->
  forall fuel start visited,
    match walk fuel board start d visited with
    | Ret (_, out) => Forall (fun l => axis_aligned (direction l) = true) out
    | Raise _ => False
    | OutOfFuel => True
    end.
Proof.
  intros Hkeys Haxis. induction fuel as [|fuel IH]; intros start visited; [done|].
  simpl. destruct (negb _); [constructor|].
  destruct (grid board !! _) as [block|] eqn:Hblock; [|apply IH].
  destruct (interact_step_axis block start d) as (out & -> & Hout);
    [by apply Hkeys|done|].
  simpl. eapply Forall_impl; [exact Hout|].
  intros l [_ [-> | ->]]; [done|by rewrite axis_aligned_reversed].
Qed.

Lemma loop_axis (board : Board) :
  keys_are_positions board ->
  forall fuel visited seen active e,
    Forall (fun l => axis_aligned (direction l) = true) active ->
    simulate_loop fuel board visited seen active <> Raise e.
Proof.
  intros Hkeys. induction fuel as [|fuel IH]; intros visited seen active e Hactive; [done|].
  simpl. destruct (list_pop active) as [[laser rest]|] eqn:Hpop; [|done].
  apply list_pop_Some in Hpop as ->. apply Forall_app in Hactive as [Hrest Hlaser].
  rewrite Forall_singleton in Hlaser.
  case_bool_decide; [by apply IH|].
  pose proof (walk_axis board (direction laser) Hkeys Hlaser fuel (origin laser) visited)
    as Hwalk.
  destruct (walk fuel board _ _ visited) as [[visited' out]| |]; [|done|done].
  apply IH. by apply Forall_app.
Qed.

(** X10: on a board whose blocks are stored under their positions and
    whose sources all run along an axis, [simulate_lasers] raises no error:
    with [simulate_fuel board] steps it returns a set of points and leaves
    the board as it was. *)
Theorem simulate_lasers_axis_aligned (board : Board) (fuel : nat) :
  keys_are_positions board ->
  (forall l, l ∈ lasers board -> axis_aligned (direction l) = true) ->
  (simulate_fuel board <= fuel)%nat ->
  exists v, simulate_lasers fuel board = Ret (v, board, []).
Proof.
  intros Hkeys Haxis Hfuel.
  assert (simulate_loop fuel board ∅ ∅ (lasers board) <> OutOfFuel) as Hends.
  { apply simulate_loop_moving; [|done].
    intros l Hl. by apply axis_aligned_moving, Haxis. }
  destruct (simulate_loop fuel board ∅ ∅ (lasers board)) as [v|e|] eqn:Hloop; [| |done].
  - exists v. by apply simulate_lasers_of_loop.
  - exfalso. eapply loop_axis; [exact Hkeys| |exact Hloop]. by apply Forall_forall.
Qed.

Lemma board_column_mirror_keys : keys_are_positions board_column_mirror.
Proof.
  intros p block Hblock. destruct (decide (p = mkPoint 2 4)) as [->|Hne].
  - by injection Hblock as <-.
  - unfold board_column_mirror in Hblock. simpl in Hblock.
    rewrite lookup_insert_ne in Hblock by done. by rewrite lookup_empty in Hblock.
Qed.

Lemma simulate_lasers_axis_aligned_witness :
  exists v, simulate_lasers 40 board_column_mirror = Ret (v, board_column_mirror, []).
Proof.
  apply simulate_lasers_axis_aligned.
  - apply board_column_mirror_keys.
  - intros l Hl. apply list_elem_of_singleton in Hl as ->. reflexivity.
  - vm_compute. lia.
Defined.

(** The points of a walk along an axis stay on its line. *)
Lemma reaches_on_line board d start previous current :
  reaches board d start previous current ->
  (x d = 0 -> x current = x start) /\ (y d = 0 -> y current = y start).
Proof.
  induction 1 as [start Hvalid|start previous current Hvalid Hfree Hreach [IHx IHy]].
  - simpl. lia.
  - simpl in IHx, IHy. lia.
Qed.

Lemma on_line_step (l0 : Laser) (d start current : Point) :
  axis_aligned d = true -> (x d = 0 <-> x (direction l0) = 0) ->
  on_line l0 start ->
  (x d = 0 -> x current = x start) /\ (y d = 0 -> y current = y start) ->
  on_line l0 current.
Proof.
  intros Hax Hdir Hline [Hx Hy]. unfold on_line in *. unfold axis_aligned in Hax.
  destruct (decide (x (direction l0) = 0)) as [H0|H0].
  - rewrite bool_decide_eq_true_2 in Hline by done.
    rewrite bool_decide_eq_true_2 by done. rewrite Hx by by apply Hdir. done.
  - rewrite bool_decide_eq_false_2 in Hline by done.
    rewrite bool_decide_eq_false_2 by done.
    assert (x d <> 0) as Hnx by (intros Hz; by apply H0, Hdir).
    rewrite (bool_decide_eq_false_2 _ Hnx) in Hax. simpl in Hax.
    apply bool_decide_eq_true in Hax. rewrite Hy by done. done.
Qed.

Lemma beam_on_line (board : Board) :
  keys_are_positions board ->
  (forall l, l ∈ lasers board -> axis_aligned (direction l) = true) ->
  forall l, beam board l ->
    exists l0, l0 ∈ lasers board /\ on_line l0 (origin l) /\
      axis_aligned (direction l) = true /\
      (x (direction l) = 0 <-> x (direction l0) = 0).
Proof.
  intros Hkeys Haxis.
  induction 1 as [l Hl|l previous current block out l' _ IH Hreach Hblock Hint Hl'].
  - exists l. split; [done|]. split; [|by split; [apply Haxis|]].
    unfold on_line. by case_bool_decide.
  - destruct IH as (l0 & Hl0 & Hline & Hax & Hdir). exists l0. split; [done|].
    destruct (interact_step_axis block previous (direction l)) as (out' & Hint' & Hout);
      [rewrite (Hkeys _ _ Hblock); by eapply reaches_step|done|].
    rewrite Hint in Hint'. injection Hint' as <-.
    rewrite Forall_forall in Hout. destruct (Hout l' Hl') as [Hor Hd].
    rewrite Hor, (Hkeys _ _ Hblock).
    apply reaches_on_line in Hreach.
    split; [by eapply on_line_step|].
    destruct Hd as [-> | ->]; [done|].
    rewrite axis_aligned_reversed. split; [done|].
    rewrite <- Hdir. unfold reversed. simpl. lia.
Qed.

(** X11: with sources that run along an axis, on a board whose blocks are
    stored under their positions, light never turns a corner: every point
    [simulate_lasers] returns is on the row, or on the column, that some
    source runs along. A reflect block sends the laser back the way it
    came. *)
Theorem simulate_lasers_stays_on_line (board : Board) (fuel : nat) v board' log :
  keys_are_positions board ->
  (forall l, l ∈ lasers board -> axis_aligned (direction l) = true) ->
  simulate_lasers fuel board = Ret (v, board', log) ->
  forall p, p ∈ v -> exists l, l ∈ lasers board /\ on_line l p.
Proof.
  intros Hkeys Haxis Hrun p Hp.
  apply simulate_lasers_Ret in Hrun as (Hrun & _ & _).
  apply (simulate_loop_touched _ _ _ Hrun) in Hp as (l & previous & Hbeam & Hreach).
  destruct (beam_on_line board Hkeys Haxis l Hbeam) as (l0 & Hl0 & Hline & Hax & Hdir).
  exists l0. split; [done|].
  apply reaches_on_line in Hreach. by eapply on_line_step.
Qed.

Lemma simulate_lasers_stays_on_line_witness :
  exists l, l ∈ lasers board_column_mirror /\ on_line l (mkPoint 2 1).
Proof.
  apply (simulate_lasers_stays_on_line board_column_mirror 40
           (list_to_set [mkPoint 2 0; mkPoint 2 1; mkPoint 2 2; mkPoint 2 3; mkPoint 2 4])
           board_column_mirror []).
  - apply board_column_mirror_keys.
  - intros l Hl. apply list_elem_of_singleton in Hl as ->. reflexivity.
  - vm_compute. reflexivity.
  - apply elem_of_list_to_set, list_elem_of_In. simpl. auto.
Defined.

(** ** The sources as a set *)

Lemma reaches_set_lasers ls1 ls2 board d start previous current :
  reaches (set_lasers ls1 board) d start previous current ->
  reaches (set_lasers ls2 board) d start previous current.
Proof.
  induction 1 as [start Hvalid|start previous current Hvalid Hfree Hreach IH].
  - by apply reaches_first.
  - by apply reaches_later.
Qed.

Lemma beam_set_lasers ls1 ls2 board l :
  (forall l0, l0 ∈ ls1 -> l0 ∈ ls2) ->
  beam (set_lasers ls1 board) l -> beam (set_lasers ls2 board) l.
Proof.
  intros Hsub.
  induction 1 as [l Hl|l previous current block out l' _ IH Hreach Hblock Hint Hl'].
  - apply beam_source. by apply Hsub.
  - eapply beam_emitted; [exact IH| |exact Hblock|exact Hint|exact Hl'].
    by eapply reaches_set_lasers.
Qed.

(** X12: the illuminated set grows with the sources, and depends on them
    as a set only: when every source of one list is a source of a second
    list, each point [simulate_lasers] returns for the first it returns for
    the second; two lists with the same members, in any order and with any
    repetitions, give the same set. *)
Theorem simulate_lasers_more_sources (board : Board) (ls1 ls2 : list Laser)
    (fuel1 fuel2 : nat) v1 v2 b1 b2 log1 log2 :
  (forall l, l ∈ ls1 -> l ∈ ls2) ->
  simulate_lasers fuel1 (set_lasers ls1 board) = Ret (v1, b1, log1) ->
  simulate_lasers fuel2 (set_lasers ls2 board) = Ret (v2, b2, log2) ->
  v1 ⊆ v2 /\ ((forall l, l ∈ ls2 -> l ∈ ls1) -> v1 = v2).
Proof.
  intros Hsub Hrun1 Hrun2.
  apply simulate_lasers_Ret in Hrun1 as (Hrun1 & _ & _).
  apply simulate_lasers_Ret in Hrun2 as (Hrun2 & _ & _).
  assert (forall ls ls' w w' f f',
            (forall l, l ∈ ls -> l ∈ ls') ->
            simulate_loop f (set_lasers ls board) ∅ ∅ (lasers (set_lasers ls board)) = Ret w ->
            simulate_loop f' (set_lasers ls' board) ∅ ∅ (lasers (set_lasers ls' board)) = Ret w' ->
            w ⊆ w') as Hmono.
  { intros ls ls' w w' f f' Hin Hw Hw' p Hp.
    apply (simulate_loop_touched _ _ _ Hw) in Hp as (l & previous & Hbeam & Hreach).
    apply (simulate_loop_touched _ _ _ Hw'). exists l, previous.
    split; [by eapply beam_set_lasers|by eapply reaches_set_lasers]. }
  split; [exact (Hmono _ _ _ _ _ _ Hsub Hrun1 Hrun2)|].
  intros Hsup. apply set_eq. intros p. split.
  - apply (Hmono _ _ _ _ _ _ Hsub Hrun1 Hrun2).
  - apply (Hmono _ _ _ _ _ _ Hsup Hrun2 Hrun1).
Qed.

Lemma simulate_lasers_more_sources_witness :
  (list_to_set [mkPoint 2 0; mkPoint 2 1; mkPoint 2 2; mkPoint 2 3; mkPoint 2 4]
     : gset Point)
  ⊆ list_to_set [mkPoint 2 1; mkPoint 2 2; mkPoint 2 3; mkPoint 2 4;
                 mkPoint 1 0; mkPoint 2 0; mkPoint 3 0; mkPoint 4 0; mkPoint 5 0].
Proof.
  apply (simulate_lasers_more_sources board_column_mirror
           [mkLaser (mkPoint 2 0) (mkPoint 0 1)]
           [mkLaser (mkPoint 0 0) (mkPoint 1 0); mkLaser (mkPoint 2 0) (mkPoint 0 1)]
           40 40 _ _ (set_lasers [mkLaser (mkPoint 2 0) (mkPoint 0 1)] board_column_mirror)
           (set_lasers [mkLaser (mkPoint 0 0) (mkPoint 1 0); mkLaser (mkPoint 2 0) (mkPoint 0 1)]
              board_column_mirror) [] []).
  - intros l Hl. by right.
  - vm_compute. reflexivity.
  - vm_compute. reflexivity.
Defined.

(** ** Diagonal lasers and blocks on even points *)

Lemma diagonal_moving (d : Point) : diagonal d = true -> d <> mkPoint 0 0.
Proof. intros Hd ->. done. Qed.

Lemma odd_sum_step (c d : Point) :
  odd_sum c = true -> diagonal d = true -> odd_sum (Point_add c d) = true.
Proof.
  destruct c as [cx cy], d as [dx dy]. unfold odd_sum, diagonal. simpl.
  rewrite andb_true_iff, !bool_decide_eq_true. intros Hc [Hx Hy].
  replace (cx + dx + (cy + dy)) with ((cx + cy) + (dx + dy)) by lia.
  rewrite Z.odd_add, Hc.
  assert (dx + dy = 2 \/ dx + dy = 0 \/ dx + dy = -2) as [-> | [-> | ->]] by lia;
    reflexivity.
Qed.

Lemma odd_sum_not_even (p : Point) : odd_sum p = true -> even_point p = false.
Proof.
  unfold odd_sum, even_point. rewrite Z.odd_add, <- !Z.negb_even.
  by destruct (Z.even (x p)), (Z.even (y p)).
Qed.

Lemma odd_sum_free (board : Board) (p : Point) :
  even_keys (grid board) -> odd_sum p = true -> grid board !! p = None.
Proof.
  intros Heven Hodd. apply not_elem_of_dom. intros Hin.
  apply Heven in Hin. by rewrite (odd_sum_not_even _ Hodd) in Hin.
Qed.

(** A diagonal laser from a point of odd sum walks as on the board without
    blocks, and comes back with no new laser. *)
Lemma walk_misses (board : Board) (d : Point) :
  even_keys (grid board) -> diagonal d = true ->
  forall fuel start visited, odd_sum start = true ->
    walk fuel board start d visited = walk fuel (set_grid ∅ board) start d visited /\
    (walk fuel board start d visited = OutOfFuel \/
     exists visited', walk fuel board start d visited = Ret (visited', [])).
Proof.
  intros Heven Hd. induction fuel as [|fuel IH]; intros start visited Hodd.
  { split; [done|by left]. }
  simpl. change (is_valid_position (set_grid ∅ board)) with (is_valid_position board).
  destruct (negb _); [split; [done|right; by eexists]|].
  rewrite odd_sum_free by (done || by apply odd_sum_step).
  rewrite lookup_empty. apply IH. by apply odd_sum_step.
Qed.

Lemma loop_misses (board : Board) :
  even_keys (grid board) ->
  forall fuel visited seen active,
    Forall (fun l => odd_sum (origin l) = true /\ diagonal (direction l) = true) active ->
    simulate_loop fuel board visited seen active
    = simulate_loop fuel (set_grid ∅ board) visited seen active /\
    forall e, simulate_loop fuel board visited seen active <> Raise e.
Proof.
  intros Heven. induction fuel as [|fuel IH]; intros visited seen active Hactive;
    [done|].
  simpl. destruct (list_pop active) as [[laser rest]|] eqn:Hpop; [|done].
  apply list_pop_Some in Hpop as ->. apply Forall_app in Hactive as [Hrest Hlaser].
  rewrite Forall_singleton in Hlaser. destruct Hlaser as [Hodd Hd].
  case_bool_decide; [by apply IH|].
  destruct (walk_misses board (direction laser) Heven Hd fuel (origin laser) visited Hodd)
    as [<- [Hout|[visited' Hret]]].
  - by rewrite Hout.
  - rewrite Hret, app_nil_r. by apply IH.
Qed.

Lemma simulate_loop_misses (board : Board) (g : gmap Point Block) (fuel : nat) :
  even_keys (grid board) -> even_keys g -> odd_diagonal_sources board ->
  simulate_loop fuel (set_grid g board) ∅ ∅ (lasers (set_grid g board))
  = simulate_loop fuel board ∅ ∅ (lasers board) /\
  forall e, simulate_loop fuel board ∅ ∅ (lasers board) <> Raise e.
Proof.
  intros Heven Hg Hsources.
  assert (Forall (fun l => odd_sum (origin l) = true /\ diagonal (direction l) = true)
            (lasers board)) as Hall by by apply Forall_forall.
  destruct (loop_misses board Heven fuel ∅ ∅ (lasers board) Hall) as [Heq Hraise].
  destruct (loop_misses (set_grid g board) Hg fuel ∅ ∅ (lasers board) Hall) as [Heq' _].
  split; [|done]. simpl. by rewrite Heq, Heq'.
Qed.

Lemma reaches_odd_sum board d start previous current :
  reaches board d start previous current ->
  odd_sum start = true -> diagonal d = true -> odd_sum current = true.
Proof.
  induction 1 as [start Hvalid|start previous current Hvalid Hfree Hreach IH];
    intros Hodd Hd.
  - by apply odd_sum_step.
  - apply IH; [by apply odd_sum_step|done].
Qed.

Lemma beam_misses (board : Board) (l : Laser) :
  even_keys (grid board) -> odd_diagonal_sources board ->
  beam board l -> l ∈ lasers board.
Proof.
  intros Heven Hsources.
  induction 1 as [l Hl|l previous current block out l' _ IH Hreach Hblock Hint Hl'];
    [done|].
  destruct (Hsources l IH) as [Hodd Hd].
  pose proof (reaches_odd_sum _ _ _ _ _ Hreach Hodd Hd) as Hcur.
  rewrite (odd_sum_free board current Heven Hcur) in Hblock. done.
Qed.

(** X13: when every block of the grid sits on a point with two even
    coordinates (where [parse_bff] and [solver] put them) and every source
    starts on a point whose coordinates add up to an odd number and runs
    along a diagonal, no laser ever steps onto a block: [simulate_lasers]
    returns, the points it returns hold no block, and it returns the same
    set whatever blocks are put on even points instead. *)
Theorem simulate_lasers_misses_even_blocks (board : Board) (g : gmap Point Block)
    (fuel : nat) :
  even_keys (grid board) -> even_keys g -> odd_diagonal_sources board ->
  (simulate_fuel board <= fuel)%nat ->
  exists v, simulate_lasers fuel board = Ret (v, board, []) /\
    simulate_lasers fuel (set_grid g board) = Ret (v, set_grid g board, []) /\
    forall p, p ∈ v -> grid board !! p = None /\ g !! p = None.
Proof.
  intros Heven Hg Hsources Hfuel.
  destruct (simulate_loop_misses board g fuel Heven Hg Hsources) as [Heq Hraise].
  assert (simulate_loop fuel board ∅ ∅ (lasers board) <> OutOfFuel) as Hends.
  { apply simulate_loop_moving; [|done].
    intros l Hl. by apply diagonal_moving, Hsources. }
  destruct (simulate_loop fuel board ∅ ∅ (lasers board)) as [v|e|] eqn:Hloop;
    [|by destruct (Hraise e)|done].
  exists v. split; [by apply simulate_lasers_of_loop|].
  split; [by apply simulate_lasers_of_loop|].
  intros p Hp. apply (simulate_loop_touched _ _ _ Hloop) in Hp
    as (l & previous & Hbeam & Hreach).
  apply beam_misses in Hbeam; [|done|done]. destruct (Hsources l Hbeam) as [Hodd Hd].
  pose proof (reaches_odd_sum _ _ _ _ _ Hreach Hodd Hd) as Hcur.
  split; [by apply odd_sum_free|]. by apply (odd_sum_free (set_grid g board)).
Qed.

Lemma board_diagonal_pass_even : even_keys (grid board_diagonal_pass).
Proof.
  intros p Hp. unfold board_diagonal_pass in Hp. simpl in Hp.
  rewrite dom_insert_L, dom_empty_L in Hp.
  apply elem_of_union in Hp as [->%elem_of_singleton|Hp]; [done|].
  by apply not_elem_of_empty in Hp.
Qed.

Lemma board_diagonal_pass_sources : odd_diagonal_sources board_diagonal_pass.
Proof. intros l Hl. by apply list_elem_of_singleton in Hl as ->. Qed.

Lemma simulate_lasers_misses_even_blocks_witness :
  exists v, simulate_lasers 40 board_diagonal_pass = Ret (v, board_diagonal_pass, []) /\
    simulate_lasers 40 (set_grid ∅ board_diagonal_pass)
    = Ret (v, set_grid ∅ board_diagonal_pass, []) /\
    forall p, p ∈ v ->
      grid board_diagonal_pass !! p = None /\ (∅ : gmap Point Block) !! p = None.
Proof.
  apply simulate_lasers_misses_even_blocks.
  - apply board_diagonal_pass_even.
  - intros p Hp. rewrite dom_empty_L in Hp. by apply not_elem_of_empty in Hp.
  - apply board_diagonal_pass_sources.
  - vm_compute. lia.
Defined.

(** ** What the solver returns *)

Lemma length_placed_at (todo : list BlockType) (ps : list Point) :
  length ps = length todo -> length (placed_at todo ps) = length todo.
Proof. intros Hlen. unfold placed_at. rewrite length_zip_with. lia. Qed.

(** X14: the list [solver] returns solves the board: on the board it
    leaves, [simulate_lasers] returns a set that holds every target. The
    list has one new (not fixed) block for each entry of [blocks_placable],
    of the class of that entry and in that order, each on one of
    [empty_positions]. *)
Theorem solver_solution_solves (fuel : nat) (board : Board) solution board' log :
  solver fuel board = Ret (Some solution, board', log) ->
  (exists v, simulate_lasers fuel board' = Ret (v, board', []) /\ targets board ⊆ v) /\
  solution = placed_at (blocks_placable board) (pos <$> solution) /\
  length solution = length (blocks_placable board) /\
  (forall block, block ∈ solution -> pos block ∈ empty_positions board).
Proof.
  intros Hrun. apply solver_Ret in Hrun as [Hpost _]. unfold search_post in Hpost.
  simpl in Hpost. destruct Hpost as (ps & (Hlen & Hnd & Hall) & -> & -> & Hsolved).
  rewrite (pos_placed_at _ _ Hlen). split; [|split; [done|split]].
  - apply is_solved_Ret in Hsolved as (_ & _ & v & Hloop & Hsub).
    exists v. split; [by apply simulate_lasers_of_loop|].
    symmetry in Hsub. by apply bool_decide_eq_true in Hsub.
  - by apply length_placed_at.
  - intros block Hin. apply (Hall (pos block)).
    rewrite <- (pos_placed_at _ _ Hlen). by apply list_elem_of_fmap_2.
Qed.

Lemma solver_solution_solves_witness :
  (exists v, simulate_lasers 10 board_mirror_solved = Ret (v, board_mirror_solved, []) /\
             targets board_mirror ⊆ v) /\
  [mkBlock ReflectBlock (mkPoint 2 2) false]
  = placed_at (blocks_placable board_mirror)
      (pos <$> [mkBlock ReflectBlock (mkPoint 2 2) false]) /\
  length [mkBlock ReflectBlock (mkPoint 2 2) false] = length (blocks_placable board_mirror) /\
  (forall block, block ∈ [mkBlock ReflectBlock (mkPoint 2 2) false] ->
     pos block ∈ empty_positions board_mirror).
Proof.
  apply (solver_solution_solves 10 board_mirror _ board_mirror_solved
           [TryPlace 0; TryPlace 1; TryPlace 1]).
  vm_compute. reflexivity.
Defined.

(** ** The search returns when the simulation does *)


Section SearchReturns.

Variable fuel : nat.




End SearchReturns.







(** ** Blocks that no laser meets *)






(** ** A board without blocks *)

Lemma reaches_ray (board : Board) (d start previous current : Point) :
  reaches board d start previous current ->
  exists k, 1 <= k /\
    current = ray_point (mkLaser start d) k /\
    ray_inside board (mkLaser start d) k.
Proof.
  induction 1 as [start Hvalid|start previous current Hvalid Hfree Hreach IH].
  - exists 1. split; [lia|]. split.
    + unfold ray_point, Point_add. simpl. f_equal; lia.
    + intros i Hi. assert (i = 1) as -> by lia.
      replace (ray_point (mkLaser start d) 1) with (Point_add start d); [done|].
      unfold ray_point, Point_add. simpl. f_equal; lia.
  - destruct IH as (k & Hk & -> & Hinside). exists (k + 1). split; [lia|]. split.
    + unfold ray_point, Point_add. simpl. f_equal; lia.
    + intros i Hi. destruct (decide (i = 1)) as [->|Hne].
      * replace (ray_point (mkLaser start d) 1) with (Point_add start d); [done|].
        unfold ray_point, Point_add. simpl. f_equal; lia.
      * replace (ray_point (mkLaser start d) i)
          with (ray_point (mkLaser (Point_add start d) d) (i - 1)).
        -- apply Hinside. lia.
        -- unfold ray_point, Point_add. simpl. f_equal; lia.
Qed.

Lemma ray_reaches (board : Board) (d : Point) (n : nat) :
  grid board = ∅ ->
  forall start, ray_inside board (mkLaser start d) (Z.of_nat (S n)) ->
    exists previous,
      reaches board d start previous (ray_point (mkLaser start d) (Z.of_nat (S n))).
Proof.
  intros Hgrid. induction n as [|n IH]; intros start Hinside.
  - exists start.
    replace (ray_point (mkLaser start d) (Z.of_nat 1)) with (Point_add start d).
    + apply reaches_first.
      replace (Point_add start d) with (ray_point (mkLaser start d) 1).
      * apply Hinside. lia.
      * unfold ray_point, Point_add. simpl. f_equal; lia.
    + unfold ray_point, Point_add. simpl. f_equal; lia.
  - destruct (IH (Point_add start d)) as [previous Hreach].
    { intros i Hi.
      replace (ray_point (mkLaser (Point_add start d) d) i)
        with (ray_point (mkLaser start d) (i + 1)).
      - apply Hinside. lia.
      - unfold ray_point, Point_add. simpl. f_equal; lia. }
    exists previous.
    replace (ray_point (mkLaser start d) (Z.of_nat (S (S n))))
      with (ray_point (mkLaser (Point_add start d) d) (Z.of_nat (S n))).
    + apply reaches_later; [|by rewrite Hgrid, lookup_empty|exact Hreach].
      replace (Point_add start d) with (ray_point (mkLaser start d) 1).
      * apply Hinside. lia.
      * unfold ray_point, Point_add. simpl. f_equal; lia.
    + unfold ray_point, Point_add. simpl. f_equal; lia.
Qed.

Lemma beam_free_board (board : Board) (l : Laser) :
  grid board = ∅ -> beam board l -> l ∈ lasers board.
Proof.
  intros Hgrid.
  induction 1 as [l Hl|l previous current block out l' _ IH Hreach Hblock Hint Hl'];
    [done|].
  by rewrite Hgrid, lookup_empty in Hblock.
Qed.

(** X18: on a board without blocks the lasers run straight: the set
    [simulate_lasers] returns holds exactly the points one or more steps
    from a source along its direction, as far as the steps stay inside the
    board. The point a source starts from is not among them, unless a laser
    passes over it. *)
Theorem simulate_lasers_free_board (board : Board) (fuel : nat) v board' log :
  grid board = ∅ ->
  simulate_lasers fuel board = Ret (v, board', log) ->
  forall p, p ∈ v <->
    exists l k, l ∈ lasers board /\ 1 <= k /\ p = ray_point l k /\ ray_inside board l k.
Proof.
  intros Hgrid Hrun p. apply simulate_lasers_Ret in Hrun as (Hrun & _ & _).
  rewrite (simulate_loop_touched _ _ _ Hrun). split.
  - intros (l & previous & Hbeam & Hreach). apply beam_free_board in Hbeam; [|done].
    apply reaches_ray in Hreach as (k & Hk & -> & Hinside).
    exists l, k. by destruct l.
  - intros (l & k & Hl & Hk & -> & Hinside).
    destruct (Z.to_nat k) as [|n] eqn:Hn; [lia|].
    assert (k = Z.of_nat (S n)) as -> by lia.
    destruct l as [start d].
    destruct (ray_reaches board d n Hgrid start Hinside) as [previous Hreach].
    exists (mkLaser start d), previous. split; [by apply beam_source|done].
Qed.

Lemma simulate_lasers_free_board_witness :
  mkPoint 2 1 ∈ (list_to_set [mkPoint 1 1; mkPoint 2 1; mkPoint 3 1] : gset Point) <->
  exists l k, l ∈ lasers board_edge_target /\ 1 <= k /\ mkPoint 2 1 = ray_point l k /\
    ray_inside board_edge_target l k.
Proof.
  apply (simulate_lasers_free_board board_edge_target 10 _ board_edge_target []).
  - reflexivity.
  - vm_compute. reflexivity.
Defined.

(** ** Targets outside the board *)

(** X19: a target that is not inside the board (as [is_valid_position]
    has it: a coordinate below 0, or not below the width or height) is never
    illuminated, so [is_solved] does not return [True] and [solver] returns
    no solution, whatever blocks there are to place. *)
Theorem solver_target_outside (board : Board) (t : Point) (fuel : nat) :
  t ∈ targets board -> is_valid_position board t = false ->
  is_solved fuel board <> Ret (true, board, []) /\
  forall res board' log, solver fuel board = Ret (res, board', log) -> res = None.
Proof.
  intros Ht Hout.
  assert (forall b, targets b = targets board ->
            (forall p, is_valid_position b p = is_valid_position board p) ->
            is_solved fuel b <> Ret (true, b, [])) as Hnever.
  { intros b Htargets Hvalid Hrun.
    apply is_solved_Ret in Hrun as (_ & _ & v & Hloop & Hsub).
    symmetry in Hsub. apply bool_decide_eq_true in Hsub.
    rewrite Htargets in Hsub. apply Hsub in Ht.
    apply (simulate_loop_touched _ _ _ Hloop) in Ht as (l & previous & _ & Hreach).
    apply reaches_valid in Hreach. rewrite Hvalid in Hreach. congruence. }
  split; [by apply Hnever|].
  intros res board' log Hrun. apply solver_Ret in Hrun as [Hpost _].
  unfold search_post in Hpost. destruct res as [solution|]; [|done]. simpl in Hpost.
  destruct Hpost as (ps & _ & _ & -> & Hsolved). by apply Hnever in Hsolved.
Qed.

Lemma solver_target_outside_witness :
  is_solved 10 board_edge_target <> Ret (true, board_edge_target, []) /\
  forall res board' log,
    solver 10 board_edge_target = Ret (res, board', log) -> res = None.
Proof.
  apply (solver_target_outside board_edge_target (mkPoint 4 1) 10).
  - vm_compute. reflexivity.
  - reflexivity.
Defined.

(** ** Writing the solution *)

Lemma for_solution_cells_spec board y x row solution_row :
  for_solution_cells board y x row solution_row
  = solution_row ++ solution_row_from board y x row.
Proof.
  revert x solution_row. induction row as [|cell row IH]; intros x solution_row; simpl.
  - by rewrite app_nil_r.
  - rewrite IH. unfold solution_cell.
    repeat case_bool_decide; try (by rewrite <- app_assoc).
    destruct (grid board !! _) as [block|]; [|by rewrite <- app_assoc].
    destruct (class block); by rewrite <- app_assoc.
Qed.

Lemma for_solution_rows_spec board y rows :
  for_solution_rows board y rows = solution_line <$> solution_rows_from board y rows.
Proof.
  revert y. induction rows as [|row rows IH]; intros y; simpl; [done|].
  by rewrite IH, for_solution_cells_spec.
Qed.


Lemma length_solution_rows_from board y rows :
  length (solution_rows_from board y rows) = length rows.
Proof. revert y. induction rows as [|row rows IH]; intros y; simpl; [done|]. by rewrite IH. Qed.

Lemma row_cells_solution board y x row :
  row_cells y x (solution_row_from board y x row)
  = (fun pc => (pc.1, solution_cell board pc.1 pc.2)) <$> row_cells y x row.
Proof. revert x. induction row as [|cell row IH]; intros x; simpl; [done|]. by rewrite IH. Qed.

Lemma grid_cells_solution board y rows :
  grid_cells y (solution_rows_from board y rows)
  = (fun pc => (pc.1, solution_cell board pc.1 pc.2)) <$> grid_cells y rows.
Proof.
  revert y. induction rows as [|row rows IH]; intros y; simpl; [done|].
  by rewrite fmap_app, IH, row_cells_solution.
Qed.



(** ** The saved rows, read again *)





Lemma interact_as_fixed block laser : interact (as_fixed block) laser = interact block laser.
Proof. done. Qed.

Lemma walk_as_fixed b1 b2 :
  width b2 = width b1 -> height b2 = height b1 -> grid b2 = as_fixed <$> grid b1 ->
  forall fuel current d visited,
    walk fuel b2 current d visited = walk fuel b1 current d visited.
Proof.
  intros Hw Hh Hgrid. induction fuel as [|fuel IH]; intros current d visited; [done|].
  simpl. unfold is_valid_position. rewrite Hw, Hh, Hgrid, lookup_fmap.
  destruct (negb _); [done|]. destruct (grid b1 !! _) as [block|]; simpl; [done|apply IH].
Qed.

Lemma simulate_loop_as_fixed b1 b2 :
  width b2 = width b1 -> height b2 = height b1 -> grid b2 = as_fixed <$> grid b1 ->
  forall fuel visited seen active,
    simulate_loop fuel b2 visited seen active = simulate_loop fuel b1 visited seen active.
Proof.
  intros Hw Hh Hgrid. induction fuel as [|fuel IH]; intros visited seen active; [done|].
  simpl. destruct (list_pop active) as [[laser rest]|]; [|done].
  case_bool_decide; [apply IH|].
  rewrite (walk_as_fixed b1 b2) by done.
  destruct (walk fuel b1 _ _ visited) as [[v new]| |]; [apply IH|done|done].
Qed.


(** X20: what [save_solution] writes is the line GRID START, one line
    for each row of the grid, in order, and the line GRID STOP. A row's
    line has its cells joined by single spaces: x for x, for o the letter of
    the block at the cell's point (A, B or C) or o when the point is free,
    and any other cell as it is. *)
Theorem save_solution_lines (board : Board) (rows : list (list string)) :
  save_solution board rows
  = ["GRID START" +:+ newline]
    ++ (solution_line <$> solution_rows board rows)
    ++ ["GRID STOP" +:+ newline] /\
  length (solution_rows board rows) = length rows /\
  forall i j cell, cell_at rows i j = Some cell ->
    cell_at (solution_rows board rows) i j
    = Some (solution_cell board (cell_point i j) cell).
Proof.
  split; [|split].
  - unfold save_solution. by rewrite for_solution_rows_spec.
  - apply length_solution_rows_from.
  - intros i j cell Hcell.
    assert ((cell_point i j, solution_cell board (cell_point i j) cell)
            ∈ grid_cells 0 (solution_rows board rows)) as Hin.
    { unfold solution_rows. rewrite grid_cells_solution.
      apply list_elem_of_fmap. exists (cell_point i j, cell). split; [done|].
      apply grid_cells_elem. exists i, j. split; [done|]. unfold cell_point. f_equal. }
    apply grid_cells_elem in Hin as (i' & j' & Hcell' & [= Hi Hj]).
    assert (i' = i) as -> by lia. assert (j' = j) as -> by lia. done.
Qed.

Lemma save_solution_lines_witness :
  cell_at (solution_rows board_example rows_example) 1 0
  = Some (solution_cell board_example (cell_point 1 0) "A").
Proof.
  destruct (save_solution_lines board_example rows_example) as (_ & _ & Hcells).
  apply (Hcells 1%nat 0%nat "A"). reflexivity.
Defined.



Lemma is_solved_as_fixed (b1 b2 : Board) (fuel : nat) (solved : bool) :
  width b2 = width b1 -> height b2 = height b1 ->
  lasers b2 = lasers b1 -> targets b2 = targets b1 ->
  grid b2 = as_fixed <$> grid b1 ->
  is_solved fuel b1 = Ret (solved, b1, []) <-> is_solved fuel b2 = Ret (solved, b2, []).
Proof.
  intros Hw Hh Hl Ht Hgrid.
  pose proof (simulate_loop_as_fixed b1 b2 Hw Hh Hgrid fuel ∅ ∅ (lasers b1)) as Hloop.
  split; intros Hrun; apply is_solved_Ret in Hrun as (_ & _ & v & Hv & ->).
  - rewrite <- Hloop, <- Hl in Hv. rewrite (is_solved_of_loop _ _ _ Hv). by rewrite Ht.
  - rewrite Hl, Hloop in Hv. rewrite (is_solved_of_loop _ _ _ Hv). by rewrite Ht.
Qed.

(** X22: the simulation does not look at the flag [fixed]: on two boards
    of the same size, with the same lasers and targets, whose grids hold the
    same blocks up to that flag, [is_solved] gives the same answer. *)
Theorem is_solved_ignores_fixed (b1 b2 : Board) (fuel : nat) (solved : bool) :
  width b2 = width b1 -> height b2 = height b1 ->
  lasers b2 = lasers b1 -> targets b2 = targets b1 ->
  grid b2 = as_fixed <$> grid b1 ->
  is_solved fuel b1 = Ret (solved, b1, []) <-> is_solved fuel b2 = Ret (solved, b2, []).
Proof. apply is_solved_as_fixed. Qed.

Lemma is_solved_ignores_fixed_witness :
  is_solved 10 board_mirror_solved = Ret (true, board_mirror_solved, []) <->
  is_solved 10 (set_grid (as_fixed <$> grid board_mirror_solved) board_mirror_solved)
  = Ret (true, set_grid (as_fixed <$> grid board_mirror_solved) board_mirror_solved, []).
Proof.
  apply is_solved_ignores_fixed; reflexivity.
Defined.


